(** * Automated Network Configuration Tool: a verification development

    The program under study is [network_config_tool.py].  It connects to
    each device of an inventory, saves the running configuration to a
    backup file, renders the desired configuration from a template,
    compares both with [difflib.unified_diff] and pushes the rendered
    configuration when the comparison is not empty.

    The development has four parts, followed by the facts about them:
    - [Py]: the operations on Python strings the program uses
      ([str.split], [str.splitlines], integer formatting);
    - [Difflib]: the line differ the program calls
      ([difflib.unified_diff] and the [SequenceMatcher] behind it);
    - [Patch]: how a unified diff is applied to the old lines;
    - [Tool]: the functions of [network_config_tool.py] themselves, as
      programs of a state-and-exception monad over a trace of effects. *)

From Stdlib Require DecimalNat.
From stdpp Require Import base numbers option list strings gmap sorting.

(** * Python strings *)

Module Py.

(** A Python [str] is a sequence of code points. *)
Definition str : Type := list N.

(** Code points of the characters the program and the library name. *)
Definition LF : N := 10.
Definition VT : N := 11.
Definition FF : N := 12.
Definition CR : N := 13.
Definition FS : N := 28.
Definition GS : N := 29.
Definition RS : N := 30.
Definition NEL : N := 133.
Definition LSEP : N := 8232.
Definition PSEP : N := 8233.

(** A string literal of the source, written as a Rocq string. *)
Fixpoint lit (s : string) : str :=
  match s with
  | EmptyString => []
  | String c s' => Ascii.N_of_ascii c :: lit s'
  end.
Arguments lit s%_string.

(** [s.split(sep)] for a one-character separator: the pieces between
    the occurrences of [sep]; never empty ([''.split(sep) == ['']]). *)
Fixpoint split (sep : N) (s : str) : list str :=
  match s with
  | [] => [[]]
  | c :: s' =>
      if N.eqb c sep then [] :: split sep s'
      else match split sep s' with
           | w :: ws => (c :: w) :: ws
           | [] => [[c]]
           end
  end.

(** The characters [str.splitlines] treats as line boundaries. *)
Definition is_linebreak (c : N) : bool :=
  N.eqb c LF || N.eqb c CR || N.eqb c VT || N.eqb c FF || N.eqb c FS
  || N.eqb c GS || N.eqb c RS || N.eqb c NEL || N.eqb c LSEP
  || N.eqb c PSEP.

(** [s.splitlines()] (keepends false): lines end at a line boundary,
    [\r\n] counts as one boundary, and a final boundary opens no further
    line ([''.splitlines() == []], ['a\n'.splitlines() == ['a']]). *)
Fixpoint splitlines (s : str) : list str :=
  match s with
  | [] => []
  | c :: s' =>
      if is_linebreak c then
        [] :: (if N.eqb c CR
               then match s' with
                    | d :: s'' => if N.eqb d LF then splitlines s''
                                  else splitlines s'
                    | [] => splitlines s'
                    end
               else splitlines s')
      else match splitlines s' with
           | w :: ws => (c :: w) :: ws
           | [] => [[c]]
           end
  end.

(** ['{}'.format(n)] for a non-negative integer: its decimal digits. *)
Fixpoint uint_digits (u : Decimal.uint) : str :=
  match u with
  | Decimal.Nil => []
  | Decimal.D0 u' => 48%N :: uint_digits u'
  | Decimal.D1 u' => 49%N :: uint_digits u'
  | Decimal.D2 u' => 50%N :: uint_digits u'
  | Decimal.D3 u' => 51%N :: uint_digits u'
  | Decimal.D4 u' => 52%N :: uint_digits u'
  | Decimal.D5 u' => 53%N :: uint_digits u'
  | Decimal.D6 u' => 54%N :: uint_digits u'
  | Decimal.D7 u' => 55%N :: uint_digits u'
  | Decimal.D8 u' => 56%N :: uint_digits u'
  | Decimal.D9 u' => 57%N :: uint_digits u'
  end.

Definition format_int (n : nat) : str := uint_digits (Nat.to_uint n).

End Py.

Import Py.


(** * The line differ: [difflib.SequenceMatcher] and [difflib.unified_diff]

    [configure_device] calls
    [difflib.unified_diff(current_config, new_config,
       fromfile="Current Config", tofile="New Config", lineterm="")],
    which builds [SequenceMatcher(None, a, b)]: no junk predicate, the
    automatic junk heuristic on.  The definitions follow the methods of
    the library in their order.  Indices are natural numbers; where the
    library subtracts, the comment says why the difference is not
    negative or why the truncated value is harmless. *)

Module Difflib.

(** [Match(a, b, size)] and the 5-tuples of [get_opcodes]. *)
Definition Match : Type := nat * nat * nat.

Inductive tag := Replace | Delete | Insert | Equal.

Definition opcode : Type := tag * nat * nat * nat * nat.

#[export] Instance tag_eq_dec : EqDecision tag.
Proof. solve_decision. Defined.

(** Python compares tuples lexicographically: the order of
    [matching_blocks.sort()]. *)
Definition Match_le (x y : Match) : Prop :=
  let '(i, j, k) := x in
  let '(i', j', k') := y in
  i < i' ∨ (i = i' ∧ (j < j' ∨ (j = j' ∧ k ≤ k'))).

#[export] Instance Match_le_dec : RelDecision Match_le.
Proof. intros [[i j] k] [[i' j'] k']; simpl; apply _. Defined.

Section SequenceMatcher.
Context {A : Type} `{Countable A}.
Context (a b : list A).

(** [__chain_b]: [b2j] maps every element of [b] to the increasing
    list of its positions.  [first] is the position of the head of the
    part of [b] still to enter. *)
Fixpoint chain_b_enter (first : nat) (rest : list A)
    (b2j : gmap A (list nat)) : gmap A (list nat) :=
  match rest with
  | [] => b2j
  | elt :: rest' =>
      chain_b_enter (S first) rest'
        (<[elt := default [] (b2j !! elt) ++ [first]]> b2j)
  end.

(** [isjunk] is [None]: the junk set stays empty.  With [autojunk] and
    200 elements or more, the elements that occur more than
    [n // 100 + 1] times are "popular" and leave [b2j]. *)
Definition bjunk : gset A := ∅.

Definition isbjunk (x : A) : bool := bool_decide (x ∈ bjunk).

Definition chain_b : gmap A (list nat) :=
  let b2j := chain_b_enter 0 b ∅ in
  let n := length b in
  if decide (200 ≤ n) then
    let ntest := n / 100 + 1 in
    filter (λ kv : A * list nat, ¬ (ntest < length kv.2)) b2j
  else b2j.

(** [a[i] == b[j]] for indices in range. *)
Definition same_elt (i j : nat) : bool :=
  match a !! i, b !! j with
  | Some x, Some y => bool_decide (x = y)
  | _, _ => false
  end.

Definition junk_at (j : nat) : bool :=
  match b !! j with
  | Some y => isbjunk y
  | None => false
  end.

(** [j2lenget(j-1, 0)]: the keys of [j2len] are positions of [b], so
    the key [-1] is never bound. *)
Definition j2lenget (j2len : gmap nat nat) (j : nat) : nat :=
  match j with
  | 0 => 0
  | S j' => default 0 (j2len !! j')
  end.

(** The inner loop of [find_longest_match], over the positions [js]
    of [a[i]] in [b].  [i - k + 1] is written [i + 1 - k]: a match of
    length [k] that ends at [a[i]] and [b[j]] starts at or after [alo]
    and [blo], so [k] is at most [i + 1] and [j + 1]
    (lemma [flm_inner_ok]). *)
Fixpoint flm_inner (i blo bhi : nat) (j2len : gmap nat nat)
    (js : list nat) (newj2len : gmap nat nat) (best : Match)
    : gmap nat nat * Match :=
  match js with
  | [] => (newj2len, best)
  | j :: js' =>
      if decide (j < blo) then
        flm_inner i blo bhi j2len js' newj2len best
      else if decide (bhi ≤ j) then (newj2len, best)
      else
        let k := j2lenget j2len j + 1 in
        let best' :=
          if decide (best.2 < k) then (i + 1 - k, j + 1 - k, k)
          else best in
        flm_inner i blo bhi j2len js' (<[j := k]> newj2len) best'
  end.

(** The outer loop, over [range(alo, ahi)]. *)
Fixpoint flm_outer (b2j : gmap A (list nat)) (blo bhi : nat)
    (range : list nat) (j2len : gmap nat nat) (best : Match) : Match :=
  match range with
  | [] => best
  | i :: range' =>
      let js := match a !! i with
                | Some x => default [] (b2j !! x)
                | None => []
                end in
      let '(newj2len, best') := flm_inner i blo bhi j2len js ∅ best in
      flm_outer b2j blo bhi range' newj2len best'
  end.

(** The loops that extend the best match on each end.  [junk] says
    which kind of element the loop accepts: the first pair of loops
    takes elements that are not junk, the second pair junk only. *)
Fixpoint extend_left (junk : bool) (alo blo : nat)
    (besti bestj bestsize : nat) {struct besti} : Match :=
  match besti, bestj with
  | S i', S j' =>
      if bool_decide (alo < besti ∧ blo < bestj)
         && Bool.eqb (junk_at j') junk && same_elt i' j'
      then extend_left junk alo blo i' j' (S bestsize)
      else (besti, bestj, bestsize)
  | _, _ => (besti, bestj, bestsize)
  end.

(** [fuel] bounds the iterations of the [while]; [ahi - (besti +
    bestsize)] is enough, since each iteration adds one to
    [bestsize] and the loop stops at [ahi] (lemma
    [extend_right_fuel]). *)
Fixpoint extend_right (fuel : nat) (junk : bool) (ahi bhi : nat)
    (besti bestj bestsize : nat) : Match :=
  match fuel with
  | 0 => (besti, bestj, bestsize)
  | S fuel' =>
      if bool_decide (besti + bestsize < ahi ∧ bestj + bestsize < bhi)
         && Bool.eqb (junk_at (bestj + bestsize)) junk
         && same_elt (besti + bestsize) (bestj + bestsize)
      then extend_right fuel' junk ahi bhi besti bestj (S bestsize)
      else (besti, bestj, bestsize)
  end.

Definition extend (junk : bool) (alo ahi blo bhi : nat) (m : Match)
    : Match :=
  let '(besti, bestj, bestsize) :=
    extend_left junk alo blo m.1.1 m.1.2 m.2 in
  extend_right (ahi - (besti + bestsize)) junk ahi bhi
    besti bestj bestsize.

Definition find_longest_match (b2j : gmap A (list nat))
    (alo ahi blo bhi : nat) : Match :=
  let best :=
    flm_outer b2j blo bhi (seq alo (ahi - alo)) ∅ (alo, blo, 0) in
  extend true alo ahi blo bhi (extend false alo ahi blo bhi best).

(** The work list of [get_matching_blocks].  [queue] holds the Python
    list with its last element first, so that [queue.pop()] takes the
    head and [queue.append] conses; [blocks] likewise holds
    [matching_blocks] last element first. *)
Definition region : Type := nat * nat * nat * nat.

Fixpoint mb_loop (fuel : nat) (b2j : gmap A (list nat))
    (queue : list region) (blocks : list Match) : list Match :=
  match fuel with
  | 0 => blocks
  | S fuel' =>
      match queue with
      | [] => blocks
      | (alo, ahi, blo, bhi) :: queue' =>
          let '(i, j, k) := find_longest_match b2j alo ahi blo bhi in
          if decide (k = 0) then mb_loop fuel' b2j queue' blocks
          else
            let q1 := if decide (alo < i ∧ blo < j)
                      then (alo, i, blo, j) :: queue' else queue' in
            let q2 := if decide (i + k < ahi ∧ j + k < bhi)
                      then (i + k, ahi, j + k, bhi) :: q1 else q1 in
            mb_loop fuel' b2j q2 ((i, j, k) :: blocks)
      end
  end.

(** The loop that collapses adjacent blocks; the result lists what
    the loop appends to [non_adjacent], the final dummy included. *)
Fixpoint collapse (i1 j1 k1 : nat) (blocks : list Match) : list Match :=
  match blocks with
  | [] =>
      (if decide (k1 = 0) then [] else [(i1, j1, k1)])
      ++ [(length a, length b, 0)]
  | (i2, j2, k2) :: blocks' =>
      if decide (i1 + k1 = i2 ∧ j1 + k1 = j2)
      then collapse i1 j1 (k1 + k2) blocks'
      else (if decide (k1 = 0) then [] else [(i1, j1, k1)])
           ++ collapse i2 j2 k2 blocks'
  end.

(** Every turn of the work loop takes one region and puts back
    regions that are shorter in [a] by one element at least:
    [2 * len(a) + 1] turns empty the queue (lemma
    [get_matching_blocks_fuel]). *)
Definition get_matching_blocks : list Match :=
  let la := length a in
  let lb := length b in
  let matching_blocks :=
    rev (mb_loop (2 * la + 1) chain_b [(0, la, 0, lb)] []) in
  collapse 0 0 0 (merge_sort Match_le matching_blocks).

(** [get_opcodes]: the loop over the matching blocks, from [(i, j)]. *)
Fixpoint opcodes_from (i j : nat) (blocks : list Match) : list opcode :=
  match blocks with
  | [] => []
  | (ai, bj, size) :: blocks' =>
      (if decide (i < ai ∧ j < bj) then [(Replace, i, ai, j, bj)]
       else if decide (i < ai) then [(Delete, i, ai, j, bj)]
       else if decide (j < bj) then [(Insert, i, ai, j, bj)]
       else [])
      ++ (if decide (size = 0) then []
          else [(Equal, ai, ai + size, bj, bj + size)])
      ++ opcodes_from (ai + size) (bj + size) blocks'
  end.

Definition get_opcodes : list opcode := opcodes_from 0 0 get_matching_blocks.

(** [get_grouped_opcodes(n)].  [max(i1, i2-n)]: where [i2 - n] is
    negative in Python the maximum is [i1], as with the truncated
    difference.  [i2 - i1] is the length of an opcode's range in [a],
    never negative. *)
Definition fix_first (n : nat) (codes : list opcode) : list opcode :=
  match codes with
  | (Equal, i1, i2, j1, j2) :: codes' =>
      (Equal, i1 `max` (i2 - n), i2, j1 `max` (j2 - n), j2) :: codes'
  | _ => codes
  end.

Fixpoint fix_last (n : nat) (codes : list opcode) : list opcode :=
  match codes with
  | [] => []
  | [(Equal, i1, i2, j1, j2)] =>
      [(Equal, i1, i2 `min` (i1 + n), j1, j2 `min` (j1 + n))]
  | c :: codes' => c :: fix_last n codes'
  end.

Definition is_equal (t : tag) : bool := bool_decide (t = Equal).

Fixpoint group_loop (n : nat) (codes : list opcode) (group : list opcode)
    : list (list opcode) :=
  match codes with
  | [] =>
      match group with
      | [] => []
      | [(Equal, _, _, _, _)] => []
      | _ => [group]
      end
  | (t, i1, i2, j1, j2) :: codes' =>
      if is_equal t && bool_decide (n + n < i2 - i1) then
        (group ++ [(t, i1, i2 `min` (i1 + n), j1, j2 `min` (j1 + n))])
        :: group_loop n codes'
             [(t, i1 `max` (i2 - n), i2, j1 `max` (j2 - n), j2)]
      else group_loop n codes' (group ++ [(t, i1, i2, j1, j2)])
  end.

Definition get_grouped_opcodes (n : nat) : list (list opcode) :=
  let codes := get_opcodes in
  let codes := match codes with
               | [] => [(Equal, 0, 1, 0, 1)]
               | _ => codes
               end in
  group_loop n (fix_last n (fix_first n codes)) [].

(** The slice [l[lo:hi]], empty when [hi <= lo]. *)
Definition slice (l : list A) (lo hi : nat) : list A :=
  take (hi - lo) (drop lo l).

End SequenceMatcher.

(** [_format_range_unified(start, stop)], called with [start <= stop];
    [beginning] is at least one when it is decreased. *)
Definition format_range_unified (start stop : nat) : str :=
  let beginning := start + 1 in
  let length := stop - start in
  if decide (length = 1) then format_int beginning
  else
    let beginning := if decide (length = 0) then beginning - 1
                     else beginning in
    format_int beginning ++ lit "," ++ format_int length.

(** The lines one opcode contributes to a hunk. *)
Definition opcode_lines (a b : list str) (c : opcode) : list str :=
  let '(t, i1, i2, j1, j2) := c in
  match t with
  | Equal => (λ line, lit " " ++ line) <$> slice a i1 i2
  | _ =>
      (match t with
       | Replace | Delete => (λ line, lit "-" ++ line) <$> slice a i1 i2
       | _ => []
       end)
      ++ (match t with
          | Replace | Insert => (λ line, lit "+" ++ line) <$> slice b j1 j2
          | _ => []
          end)
  end.

(** What [unified_diff] yields for one group: the [@@] line and the
    lines of its opcodes.  A group is never empty; [first] and [last]
    are its first and last opcodes. *)
Definition hunk_lines (a b : list str) (lineterm : str)
    (group : list opcode) : list str :=
  let first := default (Equal, 0, 0, 0, 0) (head group) in
  let last := default (Equal, 0, 0, 0, 0) (last group) in
  let file1_range := format_range_unified first.1.1.1.2 last.1.1.2 in
  let file2_range := format_range_unified first.1.2 last.2 in
  (lit "@@ -" ++ file1_range ++ lit " +" ++ file2_range ++ lit " @@"
     ++ lineterm)
  :: (group ≫= opcode_lines a b).

(** [unified_diff(a, b, fromfile, tofile, lineterm=...)] with the file
    dates left empty and [n = 3], as a list. *)
Definition unified_diff (a b : list str) (fromfile tofile lineterm : str)
    : list str :=
  match get_grouped_opcodes a b 3 with
  | [] => []
  | groups =>
      (lit "--- " ++ fromfile ++ lineterm)
      :: (lit "+++ " ++ tofile ++ lineterm)
      :: (groups ≫= hunk_lines a b lineterm)
  end.

End Difflib.

Import Difflib.


(** * Reading a unified diff

    What it means to apply the edit script to the current lines, as
    [patch] does with a unified diff: after the two file lines, every
    hunk opens with [@@ -start,length +start,length @@]; the lines up to
    [start] are kept; in the hunk a line is kept (marked with a space),
    dropped ([-]) or added ([+]); the lines after the last hunk are
    kept. *)

Module Patch.

Definition is_digit (c : N) : bool := (48 <=? c)%N && (c <=? 57)%N.

(** The number written by the leading digits of [s], continuing [acc],
    and what follows the digits. *)
Fixpoint read_nat (s : str) (acc : nat) : nat * str :=
  match s with
  | c :: s' =>
      if is_digit c then read_nat s' (10 * acc + N.to_nat (c - 48))
      else (acc, s)
  | [] => (acc, [])
  end.

(** The index in the old file (from 0) of the first line of a hunk,
    from its [@@] line.  An empty range is written with the number of
    the line before it, a range of one line without its length. *)
Definition hunk_start (l : str) : option nat :=
  match l with
  | 64%N :: 64%N :: 32%N :: 45%N :: s =>
      let '(beginning, s') := read_nat s 0 in
      match s' with
      | 44%N :: s'' =>
          let '(len, _) := read_nat s'' 0 in
          Some (if decide (len = 0) then beginning else beginning - 1)
      | _ => Some (beginning - 1)
      end
  | _ => None
  end.

(** [rest] holds the old lines from index [pos] on. *)
Fixpoint patch_lines (diff : list str) (rest : list str) (pos : nat)
    : option (list str) :=
  match diff with
  | [] => Some rest
  | l :: diff' =>
      match l with
      | 64%N :: _ =>
          match hunk_start l with
          | Some start =>
              let n := start - pos in
              (take n rest ++.) <$> patch_lines diff' (drop n rest) start
          | None => None
          end
      | 32%N :: text => (text ::.) <$> patch_lines diff' (drop 1 rest) (S pos)
      | 45%N :: text => patch_lines diff' (drop 1 rest) (S pos)
      | 43%N :: text => (text ::.) <$> patch_lines diff' rest pos
      | _ => None
      end
  end.

Definition apply_unified_diff (diff : list str) (current : list str)
    : option (list str) :=
  match diff with
  | [] => Some current
  | _ :: _ :: hunks => patch_lines hunks current 0
  | _ => None
  end.

End Patch.

Import Patch.

(** * The program: [network_config_tool.py] *)

Module Tool.
Import Difflib.

(** ** Exceptions, effects and the monad of the program

    Every error the program meets is an instance of a subclass of
    [Exception]: [KeyError] from a dictionary lookup, [ValueError] from
    the thread pool, and the errors of the libraries (netmiko, the file
    system, jinja2), kept as [Exception] with their message. *)
Inductive exn :=
  | KeyError (key : str)
  | ValueError (msg : str)
  | Exception (msg : str).

(** [str(e)]; the message of a [KeyError] is the [repr] of its key. *)
Definition exn_str (e : exn) : str :=
  match e with
  | KeyError key => lit "'" ++ key ++ lit "'"
  | ValueError msg => msg
  | Exception msg => msg
  end.

Inductive result (A : Type) :=
  | Ok (x : A)
  | Raise (e : exn).
Arguments Ok {A} x.
Arguments Raise {A} e.

(** The functions and methods of the program, as markers of their calls. *)
Inductive func :=
  | F_connect | F_send_command | F_send_config_set | F_get_config
  | F_close | F_render_config | F_backup_config | F_configure_device.

(** The calls that leave the program. *)
Inductive extcall :=
  | ConnectHandler (device_type ip username password : str)
  | SendCommand (command : str)
  | SendConfigSet (config : list str)
  | Disconnect
  | OpenW (filename : str)
  | FileWrite (filename data : str)
  | TemplateRender (device : gmap str str).

Inductive level := INFO | ERROR.

(** What one run leaves behind, in order: the calls of the program's
    own functions, the outside calls with their answers (a string, empty
    where the call returns nothing, or the exception raised), the
    comparisons made with [difflib.unified_diff] (both line sequences
    and the diff), and the lines given to the logger. *)
Inductive event :=
  | Call (f : func)
  | Ext (c : extcall) (answer : result str)
  | Compare (a b diff : list str)
  | Log (lv : level) (msg : str).

#[export] Instance exn_eq_dec : EqDecision exn.
Proof. solve_decision. Defined.
#[export] Instance result_eq_dec `{EqDecision A} : EqDecision (result A).
Proof. solve_decision. Defined.
#[export] Instance func_eq_dec : EqDecision func.
Proof. solve_decision. Defined.
#[export] Instance extcall_eq_dec : EqDecision extcall.
Proof. solve_decision. Defined.
#[export] Instance level_eq_dec : EqDecision level.
Proof. solve_decision. Defined.
#[export] Instance event_eq_dec : EqDecision event.
Proof. solve_decision. Defined.

(** The world outside: the answer to an outside call, which may depend
    on all that happened before in the run. *)
Definition Env : Type := list event → extcall → result str.

(** The state of one run of [configure_device]: the trace so far and
    the attribute [connection] of its [NetworkDevice] ([false] for
    [None], [true] for a netmiko connection). *)
Record state := mkState { trace : list event; connection : bool }.

Definition M (A : Type) : Type := state → state * result A.

Definition ret {A} (x : A) : M A := λ s, (s, Ok x).

Definition bind {A B} (m : M A) (k : A → M B) : M B :=
  λ s, match m s with
       | (s', Ok x) => k x s'
       | (s', Raise e) => (s', Raise e)
       end.

Declare Scope prog_scope.
Delimit Scope prog_scope with prog.
Bind Scope prog_scope with M.
Notation "x ← y ; z" := (bind y (λ x, z))
  (at level 20, y at level 100, z at level 200, only parsing) : prog_scope.
Notation "y ;; z" := (bind y (λ _, z))
  (at level 100, z at level 200, only parsing, right associativity)
  : prog_scope.
Local Open Scope prog_scope.

Definition raise {A} (e : exn) : M A := λ s, (s, Raise e).

Definition emit (ev : event) : M unit :=
  λ s, (mkState (trace s ++ [ev]) (connection s), Ok ()).

Definition extern (env : Env) (c : extcall) : M str :=
  λ s, let r := env (trace s) c in
       (mkState (trace s ++ [Ext c r]) (connection s), r).

Definition get_connection : M bool := λ s, (s, Ok (connection s)).

Definition set_connection (c : bool) : M unit :=
  λ s, (mkState (trace s) c, Ok ()).

(** [try: m except Exception as e: h e]. *)
Definition try_except {A} (m : M A) (h : exn → M A) : M A :=
  λ s, match m s with
       | (s', Ok x) => (s', Ok x)
       | (s', Raise e) => h e s'
       end.

(** [try: m finally: fin]: [fin] runs after [m] however [m] ends, and
    the outcome of [m] stands unless [fin] raises itself. *)
Definition try_finally {A} (m : M A) (fin : M unit) : M A :=
  λ s, let '(s1, r) := m s in
       match fin s1 with
       | (s2, Ok _) => (s2, r)
       | (s2, Raise e) => (s2, Raise e)
       end.

(** [for x in l: body x]. *)
Fixpoint for_each {A} (l : list A) (body : A → M unit) : M unit :=
  match l with
  | [] => ret ()
  | x :: l' => body x;; for_each l' body
  end.

Definition logger_info (msg : str) : M unit := emit (Log INFO msg).
Definition logger_error (msg : str) : M unit := emit (Log ERROR msg).

(** [d[key]]. *)
Definition getitem (d : gmap str str) (key : str) : M str :=
  match d !! key with
  | Some v => ret v
  | None => raise (KeyError key)
  end.

(** ** class NetworkDevice *)

Record NetworkDevice := mkDevice {
  hostname : str;
  username : str;
  password : str;
  device_type : str
}.

Section Device.
Context (env : Env).

Definition connect (self : NetworkDevice) : M unit :=
  emit (Call F_connect);;
  try_except
    (extern env (ConnectHandler (lit "cisco_" ++ device_type self)
                   (hostname self) (username self) (password self));;
     set_connection true;;
     logger_info (lit "Connected to " ++ hostname self))
    (λ e,
      logger_error (lit "Failed to connect to " ++ hostname self
                    ++ lit ". Error: " ++ exn_str e);;
      raise e).

Definition send_command (self : NetworkDevice) (command : str) : M str :=
  emit (Call F_send_command);;
  c ← get_connection;
  if negb c then raise (Exception (lit "Not connected to the device"))
  else extern env (SendCommand command).

Definition send_config_set (self : NetworkDevice) (config : list str)
    : M str :=
  emit (Call F_send_config_set);;
  c ← get_connection;
  if negb c then raise (Exception (lit "Not connected to the device"))
  else extern env (SendConfigSet config).

Definition get_config (self : NetworkDevice) : M str :=
  emit (Call F_get_config);;
  send_command self (lit "show running-config").

(** [connection.disconnect()] closes the session and swallows what
    goes wrong on the way: it has no failing answer. *)
Definition close (self : NetworkDevice) : M unit :=
  emit (Call F_close);;
  c ← get_connection;
  if c then
    emit (Ext Disconnect (Ok []));;
    logger_info (lit "Closed connection to " ++ hostname self)
  else ret ().

(** ** The functions of the module *)

(** A [jinja2.Template]: what [render] makes of a device record. *)
Definition Template : Type := gmap str str → result str.

Definition render_config (template : Template) (device : gmap str str)
    : M (list str) :=
  emit (Call F_render_config);;
  config_str ← (λ s, let r := template device in
                     (mkState (trace s ++ [Ext (TemplateRender device) r])
                              (connection s), r));
  ret (split LF config_str).

Definition backup_config (device : NetworkDevice) (backup_dir : str)
    : M unit :=
  emit (Call F_backup_config);;
  config ← get_config device;
  let filename := backup_dir ++ lit "/" ++ hostname device
                  ++ lit "_backup.cfg" in
  extern env (OpenW filename);;
  extern env (FileWrite filename config);;
  logger_info (lit "Backup of " ++ hostname device ++ lit " saved to "
               ++ filename).

(** The body of the [try] of [configure_device]. *)
Definition configure_body (device : NetworkDevice)
    (device_info : gmap str str) (template : Template) (backup_dir : str)
    : M unit :=
  connect device;;
  backup_config device backup_dir;;
  new_config ← render_config template device_info;
  current ← get_config device;
  let current_config := splitlines current in
  let diff := unified_diff current_config new_config
                (lit "Current Config") (lit "New Config") [] in
  emit (Compare current_config new_config diff);;
  match diff with
  | _ :: _ =>
      logger_info (lit "Configuration changes for " ++ hostname device
                   ++ lit ":");;
      for_each diff logger_info;;
      send_config_set device new_config;;
      logger_info (lit "Configuration of " ++ hostname device
                   ++ lit " completed successfully")
  | [] =>
      logger_info (lit "No configuration changes needed for "
                   ++ hostname device)
  end.

Definition configure_device (device_info : gmap str str)
    (template : Template) (backup_dir : str) : M unit :=
  emit (Call F_configure_device);;
  h ← getitem device_info (lit "hostname");
  u ← getitem device_info (lit "username");
  p ← getitem device_info (lit "password");
  t ← getitem device_info (lit "device_type");
  let device := mkDevice h u p t in
  set_connection false;;
  try_finally
    (try_except
       (configure_body device device_info template backup_dir)
       (λ e, logger_error (lit "Failed to configure " ++ hostname device
                           ++ lit ". Error: " ++ exn_str e)))
    (close device).

End Device.

(** One task of the pool: [configure_device] on a fresh state. *)
Definition run_task (env : Env) (device_info : gmap str str)
    (template : Template) (backup_dir : str) : state * result unit :=
  configure_device env device_info template backup_dir (mkState [] false).

(** [for future in as_completed(futures): future.result()]: the first
    exception met, in the order the futures complete, is raised again. *)
Fixpoint collect_results (futures : list (state * result unit))
    (completed : list nat) : result unit :=
  match completed with
  | [] => Ok ()
  | i :: completed' =>
      match futures !! i with
      | Some (_, Raise e) => Raise e
      | _ => collect_results futures completed'
      end
  end.

(** [configure_devices_parallel].  The pool refuses [max_workers <= 0]
    before any task is submitted.  Every submitted task runs to its end,
    whatever the others do: leaving the [with] block waits for all of
    them, also when [future.result()] raised.  The tasks run in separate
    threads on separate [NetworkDevice] objects; [envs i] is the world
    the task of the [i]-th device meets and [completed] the order in
    which the scheduler lets the futures complete.  The result is the
    final state of every task and what the call returns ([None]) or
    raises. *)
Definition configure_devices_parallel (envs : nat → Env)
    (completed : list nat) (devices : list (gmap str str))
    (template : Template) (backup_dir : str) (max_workers : nat)
    : list state * result unit :=
  if decide (max_workers = 0) then
    ([], Raise (ValueError (lit "max_workers must be greater than 0")))
  else
    let futures :=
      imap (λ i device, run_task (envs i) device template backup_dir)
           devices in
    (fst <$> futures, collect_results futures completed).

End Tool.

Import Tool.

Example split_trailing : split LF (lit "a" ++ [LF]) = [lit "a"; []].
Proof. reflexivity. Qed.

Example splitlines_trailing : splitlines (lit "a" ++ [LF]) = [lit "a"].
Proof. reflexivity. Qed.

Example splitlines_crlf :
  splitlines (lit "a" ++ [CR; LF] ++ lit "b" ++ [CR] ++ lit "c")
  = [lit "a"; lit "b"; lit "c"].
Proof. reflexivity. Qed.

Example diff_doc_example :
  unified_diff [lit "one"; lit "two"; lit "three"; lit "four"]
               [lit "zero"; lit "one"; lit "tree"; lit "four"]
               (lit "Original") (lit "Current") []
  = [lit "--- Original"; lit "+++ Current"; lit "@@ -1,4 +1,4 @@";
     lit "+zero"; lit " one"; lit "-two"; lit "-three"; lit "+tree";
     lit " four"].
Proof. vm_compute. reflexivity. Qed.

Example patch_doc_example :
  apply_unified_diff
    [lit "--- Original"; lit "+++ Current"; lit "@@ -1,4 +1,4 @@";
     lit "+zero"; lit " one"; lit "-two"; lit "-three"; lit "+tree";
     lit " four"]
    [lit "one"; lit "two"; lit "three"; lit "four"]
  = Some [lit "zero"; lit "one"; lit "tree"; lit "four"].
Proof. reflexivity. Qed.

(** * Facts about the differ *)

Section matcher_facts.
Context {A : Type} `{Countable A}.
Context (a b : list A).

(** [a[i:i+k] == b[j:j+k]], element by element. *)
Definition matches (i j k : nat) : Prop :=
  ∀ t, t < k → same_elt a b (i + t) (j + t) = true.

Lemma same_elt_true i j :
  same_elt a b i j = true ↔ ∃ x, a !! i = Some x ∧ b !! j = Some x.
Proof.
  unfold same_elt. destruct (a !! i) as [x|], (b !! j) as [y|].
  - rewrite bool_decide_eq_true. split; [intros ->; eauto|].
    by intros (z & [= ->] & [= ->]).
  - split; [done|]. by intros (z & _ & [=]).
  - split; [done|]. by intros (z & [=] & _).
  - split; [done|]. by intros (z & [=] & _).
Qed.

Lemma same_elt_lt i j :
  same_elt a b i j = true → i < length a ∧ j < length b.
Proof.
  rewrite same_elt_true. intros (x & Ha & Hb).
  split; eapply lookup_lt_Some; eauto.
Qed.

Lemma matches_0 i j : matches i j 0.
Proof. intros t Ht. lia. Qed.

Lemma matches_bound i j k :
  matches i j k → 0 < k → i + k ≤ length a ∧ j + k ≤ length b.
Proof.
  intros Hm Hk. destruct (same_elt_lt (i + (k - 1)) (j + (k - 1))).
  - apply Hm. lia.
  - lia.
Qed.

Lemma matches_snoc i j k :
  matches i j k → same_elt a b (i + k) (j + k) = true → matches i j (S k).
Proof.
  intros Hm He t Ht. destruct (decide (t = k)) as [->|]; [done|].
  apply Hm. lia.
Qed.

Lemma matches_cons i j k :
  same_elt a b i j = true → matches (S i) (S j) k → matches i j (S k).
Proof.
  intros He Hm [|t] Ht.
  - by rewrite !Nat.add_0_r.
  - replace (i + S t) with (S i + t) by lia.
    replace (j + S t) with (S j + t) by lia. apply Hm. lia.
Qed.

Lemma matches_app i j k1 k2 :
  matches i j k1 → matches (i + k1) (j + k1) k2 → matches i j (k1 + k2).
Proof.
  intros H1 H2 t Ht. destruct (decide (t < k1)); [by apply H1|].
  replace (i + t) with (i + k1 + (t - k1)) by lia.
  replace (j + t) with (j + k1 + (t - k1)) by lia. apply H2. lia.
Qed.

Lemma matches_sub i j k d k' :
  matches i j k → d + k' ≤ k → matches (i + d) (j + d) k'.
Proof.
  intros Hm Hle t Ht. rewrite <- !Nat.add_assoc. apply Hm. lia.
Qed.

Lemma lookup_slice (l : list A) lo hi t :
  slice l lo hi !! t = if decide (t < hi - lo) then l !! (lo + t) else None.
Proof.
  unfold slice. case_decide.
  - by rewrite lookup_take_lt, lookup_drop.
  - apply lookup_take_ge. lia.
Qed.

Lemma matches_slice i j k :
  matches i j k → slice a i (i + k) = slice b j (j + k).
Proof.
  intros Hm. apply list_eq. intros t. rewrite !lookup_slice.
  replace (i + k - i) with k by lia. replace (j + k - j) with k by lia.
  case_decide; [|done].
  destruct (proj1 (same_elt_true _ _) (Hm t ltac:(done))) as (x & -> & ->).
  done.
Qed.

(** ** [__chain_b] *)

Definition b2j_sound (b2j : gmap A (list nat)) : Prop :=
  ∀ x js j, b2j !! x = Some js → j ∈ js → b !! j = Some x.

Lemma chain_b_enter_sound rest : ∀ first b2j,
  (∀ t x, rest !! t = Some x → b !! (first + t) = Some x) →
  b2j_sound b2j → b2j_sound (chain_b_enter first rest b2j).
Proof.
  induction rest as [|elt rest IH]; intros first b2j Hrest Hs; [done|].
  simpl. apply IH.
  - intros t x Ht. replace (S first + t) with (first + S t) by lia.
    by apply Hrest.
  - intros x js j. destruct (decide (elt = x)) as [->|Hne].
    + rewrite lookup_insert_eq. intros [= <-].
      rewrite elem_of_app, list_elem_of_singleton. intros [Hj| ->].
      * destruct (b2j !! x) as [js0|] eqn:E; simpl in Hj.
        -- by eapply Hs.
        -- by apply elem_of_nil in Hj.
      * specialize (Hrest 0 x). rewrite Nat.add_0_r in Hrest. by apply Hrest.
    + rewrite lookup_insert_ne by done. apply Hs.
Qed.

Lemma chain_b_sound : b2j_sound (chain_b b).
Proof.
  unfold chain_b.
  assert (b2j_sound (chain_b_enter 0 b ∅)) as Hs.
  { apply chain_b_enter_sound; [done|]. intros x js j. by rewrite lookup_empty. }
  case_decide; [|done].
  intros x js j Hx. apply map_lookup_filter_Some in Hx as [Hx _]. by eapply Hs.
Qed.

(** ** [find_longest_match] *)

Section longest_match.
Context (b2j : gmap A (list nat)) (Hb2j : b2j_sound b2j).
Context (alo ahi blo bhi : nat).

(** A match inside the window [a[alo:ahi]], [b[blo:bhi]]. *)
Definition best_ok (m : Match) : Prop :=
  alo ≤ m.1.1 ∧ m.1.1 + m.2 ≤ ahi ∧ blo ≤ m.1.2 ∧ m.1.2 + m.2 ≤ bhi
  ∧ matches m.1.1 m.1.2 m.2.

(** What [j2len] holds when the loop is about to treat [a[i]]: the
    lengths of matches that end just before row [i]. *)
Definition row_ok (i : nat) (j2len : gmap nat nat) : Prop :=
  ∀ j k, j2len !! j = Some k →
    1 ≤ k ∧ alo + k ≤ i ∧ blo + k ≤ j + 1 ∧ j < bhi
    ∧ matches (i - k) (j + 1 - k) k.

Lemma row_ok_empty i : row_ok i ∅.
Proof. intros j k. by rewrite lookup_empty. Qed.

Lemma j2lenget_spec i j2len j :
  row_ok i j2len → alo ≤ i → blo ≤ j →
  let k0 := j2lenget j2len j in
  alo + k0 ≤ i ∧ blo + k0 ≤ j ∧ matches (i - k0) (j - k0) k0.
Proof.
  intros Hrow Hi Hj. unfold j2lenget. destruct j as [|j'].
  { simpl. repeat split; try lia. apply matches_0. }
  destruct (j2len !! j') as [k0|] eqn:E; simpl.
  - destruct (Hrow _ _ E) as (? & ? & ? & ? & Hm).
    repeat split; try lia.
    by replace (S j' - k0) with (j' + 1 - k0) by lia.
  - repeat split; try lia. apply matches_0.
Qed.

Lemma flm_inner_ok i js : ∀ j2len newj2len best,
  alo ≤ i → i < ahi →
  (∀ j, j ∈ js → same_elt a b i j = true) →
  row_ok i j2len → row_ok (S i) newj2len → best_ok best →
  row_ok (S i) (flm_inner i blo bhi j2len js newj2len best).1
  ∧ best_ok (flm_inner i blo bhi j2len js newj2len best).2.
Proof.
  induction js as [|j js IH]; intros j2len newj2len best Hlo Hhi Hjs
    Hrow Hnew Hbest; simpl; [done|].
  assert (∀ j', j' ∈ js → same_elt a b i j' = true) as Hjs'.
  { intros j' Hj'. apply Hjs. by right. }
  case_decide as Hjlo; [by apply IH|].
  case_decide as Hjhi; [done|].
  destruct (j2lenget_spec i j2len j Hrow Hlo ltac:(lia)) as (Ha & Hb & Hm).
  set (k0 := j2lenget j2len j) in *.
  assert (matches (S i - (k0 + 1)) (j + 1 - (k0 + 1)) (k0 + 1)) as Hm'.
  { replace (S i - (k0 + 1)) with (i - k0) by lia.
    replace (j + 1 - (k0 + 1)) with (j - k0) by lia.
    rewrite Nat.add_1_r. apply matches_snoc; [done|].
    replace (i - k0 + k0) with i by lia.
    replace (j - k0 + k0) with j by lia. apply Hjs. by left. }
  apply IH; try done.
  - intros j' k'. destruct (decide (j = j')) as [<-|Hne].
    + rewrite lookup_insert_eq. intros [= <-]. repeat split; try lia. done.
    + rewrite lookup_insert_ne by done. apply Hnew.
  - case_decide; [|done]. unfold best_ok; simpl.
    repeat split; try lia.
    by replace (i + 1 - (k0 + 1)) with (S i - (k0 + 1)) by lia.
Qed.

Lemma flm_outer_ok range : ∀ i0 j2len best,
  range = seq i0 (length range) → alo ≤ i0 → i0 + length range ≤ ahi →
  row_ok i0 j2len → best_ok best →
  best_ok (flm_outer a b2j blo bhi range j2len best).
Proof.
  induction range as [|i range IH]; intros i0 j2len best Hseq Hlo Hhi
    Hrow Hbest; simpl; [done|].
  simpl in Hseq, Hhi. injection Hseq as -> Hseq.
  set (js := match a !! i0 with
             | Some x => default [] (b2j !! x)
             | None => []
             end).
  assert (∀ j, j ∈ js → same_elt a b i0 j = true) as Hjs.
  { intros j Hj. subst js. apply same_elt_true.
    destruct (a !! i0) as [x|]; [|by apply elem_of_nil in Hj].
    exists x. split; [done|].
    destruct (b2j !! x) as [js|] eqn:E; simpl in Hj;
      [by eapply Hb2j|by apply elem_of_nil in Hj]. }
  destruct (flm_inner_ok i0 js j2len ∅ best) as [Hr Hb];
    try done; try lia; try apply row_ok_empty.
  destruct (flm_inner i0 blo bhi j2len js ∅ best) as [newj2len best'].
  eapply (IH (S i0)); try done; lia.
Qed.

Lemma extend_left_ok junk besti : ∀ bestj bestsize,
  best_ok (besti, bestj, bestsize) →
  best_ok (extend_left a b junk alo blo besti bestj bestsize).
Proof.
  induction besti as [|i' IH]; intros bestj bestsize Hbest; simpl;
    [by destruct bestj|].
  destruct bestj as [|j']; [done|].
  destruct (bool_decide (alo < S i' ∧ blo < S j')
            && Bool.eqb (junk_at b j') junk && same_elt a b i' j') eqn:E;
    [|done].
  apply andb_true_iff in E as [E He].
  apply andb_true_iff in E as [E _].
  apply bool_decide_eq_true in E as [? ?].
  destruct Hbest as (? & ? & ? & ? & Hm); simpl in *.
  apply IH. unfold best_ok; simpl. repeat split; try lia.
  by apply matches_cons.
Qed.

Lemma extend_right_ok junk fuel : ∀ besti bestj bestsize,
  best_ok (besti, bestj, bestsize) →
  best_ok (extend_right a b fuel junk ahi bhi besti bestj bestsize).
Proof.
  induction fuel as [|fuel IH]; intros besti bestj bestsize Hbest; simpl;
    [done|].
  destruct (bool_decide (besti + bestsize < ahi ∧ bestj + bestsize < bhi)
            && Bool.eqb (junk_at b (bestj + bestsize)) junk
            && same_elt a b (besti + bestsize) (bestj + bestsize)) eqn:E;
    [|done].
  apply andb_true_iff in E as [E He].
  apply andb_true_iff in E as [E _].
  apply bool_decide_eq_true in E as [? ?].
  destruct Hbest as (? & ? & ? & ? & Hm); simpl in *.
  apply IH. unfold best_ok; simpl. repeat split; try lia.
  by apply matches_snoc.
Qed.

Lemma extend_ok junk m :
  best_ok m → best_ok (extend a b junk alo ahi blo bhi m).
Proof.
  intros Hm. unfold extend.
  pose proof (extend_left_ok junk m.1.1 m.1.2 m.2) as Hl.
  destruct (extend_left a b junk alo blo m.1.1 m.1.2 m.2)
    as [[besti bestj] bestsize].
  apply extend_right_ok, Hl. by destruct m as [[? ?] ?].
Qed.

Lemma find_longest_match_ok :
  alo ≤ ahi → blo ≤ bhi →
  best_ok (find_longest_match a b b2j alo ahi blo bhi).
Proof.
  intros Ha Hb. unfold find_longest_match. do 2 apply extend_ok.
  apply (flm_outer_ok _ alo); rewrite ?length_seq; try done; try lia.
  unfold best_ok; simpl. repeat split; try lia. apply matches_0.
Qed.

End longest_match.

(** ** [get_matching_blocks]: the work loop *)

(** The rectangle of index pairs a block covers. *)
Definition rect (m : Match) : region :=
  (m.1.1, m.1.1 + m.2, m.1.2, m.1.2 + m.2).

(** Two rectangles of which one lies wholly before the other, in [a]
    and in [b]. *)
Definition sep (r1 r2 : region) : Prop :=
  (r1.1.1.2 ≤ r2.1.1.1 ∧ r1.2 ≤ r2.1.2)
  ∨ (r2.1.1.2 ≤ r1.1.1.1 ∧ r2.2 ≤ r1.1.2).

Definition inside (r R : region) : Prop :=
  R.1.1.1 ≤ r.1.1.1 ∧ r.1.1.2 ≤ R.1.1.2 ∧ R.1.2 ≤ r.1.2 ∧ r.2 ≤ R.2.

Definition wf_region (r : region) : Prop :=
  r.1.1.1 ≤ r.1.1.2 ∧ r.1.2 ≤ r.2.

Definition block_good (m : Match) : Prop :=
  0 < m.2 ∧ matches m.1.1 m.1.2 m.2.

Fixpoint pairwise {X} (R : X → X → Prop) (l : list X) : Prop :=
  match l with
  | [] => True
  | x :: l' => Forall (R x) l' ∧ pairwise R l'
  end.

Lemma sep_sym r1 r2 : sep r1 r2 → sep r2 r1.
Proof. unfold sep. tauto. Qed.

Lemma sep_inside r R z : inside r R → sep R z → sep r z.
Proof. unfold inside, sep. lia. Qed.

Lemma Forall_sep_inside r R l :
  inside r R → Forall (sep R) l → Forall (sep r) l.
Proof.
  intros Hin HF. eapply Forall_impl; [done|]. intros z. by apply sep_inside.
Qed.

Lemma pairwise_app_r {X} (R : X → X → Prop) l1 l2 :
  pairwise R (l1 ++ l2) → pairwise R l2.
Proof. induction l1 as [|x l1 IH]; simpl; [done|]. intros [_ ?]. auto. Qed.

Lemma pairwise_insert {X} (R : X → X → Prop) x l1 l2 :
  (∀ y z, R y z → R z y) →
  Forall (R x) (l1 ++ l2) → pairwise R (l1 ++ l2) →
  pairwise R (l1 ++ x :: l2).
Proof.
  intros Hsym. induction l1 as [|y l1 IH]; simpl; [done|].
  rewrite !Forall_cons. intros [Hxy Hx] [Hy Hp]. split; [|by apply IH].
  apply Forall_app in Hy as [Hy1 Hy2]. apply Forall_app. split; [done|].
  apply Forall_cons. split; [by apply Hsym|done].
Qed.

Definition mb_inv (queue : list region) (blocks : list Match) : Prop :=
  Forall wf_region queue ∧ Forall block_good blocks
  ∧ pairwise sep (queue ++ (rect <$> blocks)).

Lemma mb_loop_inv b2j fuel : ∀ queue blocks,
  b2j_sound b2j → mb_inv queue blocks →
  mb_inv [] (mb_loop a b fuel b2j queue blocks).
Proof.
  induction fuel as [|fuel IH]; intros queue blocks Hb2j (Hwf & Hgood & Hpw);
    simpl.
  { split; [done|]. split; [done|]. by apply pairwise_app_r in Hpw. }
  destruct queue as [|[[[alo ahi] blo] bhi] queue].
  { by repeat split. }
  apply Forall_cons in Hwf as [[Ha Hb] Hwf]. simpl in Ha, Hb.
  destruct Hpw as [HR Hpw]. fold (@app region) in *.
  pose proof (find_longest_match_ok b2j Hb2j alo ahi blo bhi Ha Hb) as Hbest.
  destruct (find_longest_match a b b2j alo ahi blo bhi) as [[i j] k].
  destruct Hbest as (? & ? & ? & ? & Hm); simpl in *.
  case_decide as Hk; [by apply IH|].
  assert (inside (rect (i, j, k)) (alo, ahi, blo, bhi)) as HinX.
  { unfold inside, rect; simpl. lia. }
  assert (pairwise sep (queue ++ rect (i, j, k) :: (rect <$> blocks))) as HpX.
  { apply pairwise_insert; [apply sep_sym| |done].
    by eapply Forall_sep_inside. }
  assert (Forall block_good ((i, j, k) :: blocks)) as Hgood'.
  { apply Forall_cons. split; [|done]. split; simpl; [lia|done]. }
  set (q1 := if decide (alo < i ∧ blo < j)
             then (alo, i, blo, j) :: queue else queue).
  assert (Forall wf_region q1
          ∧ Forall (sep (rect (i, j, k))) q1
          ∧ (i + k < ahi ∧ j + k < bhi →
              Forall (sep (i + k, ahi, j + k, bhi)) q1)
          ∧ pairwise sep (q1 ++ rect (i, j, k) :: (rect <$> blocks)))
    as (Hwf1 & HX1 & HR1 & Hp1).
  { assert (Forall (sep (rect (i, j, k))) queue) as HXq.
    { apply Forall_app in HR as [HR _]. by eapply Forall_sep_inside. }
    assert (Forall (sep (i + k, ahi, j + k, bhi)) queue) as HRq.
    { apply Forall_app in HR as [HR _].
      apply (Forall_sep_inside _ (alo, ahi, blo, bhi)); [|done].
      unfold inside; simpl. lia. }
    subst q1. case_decide as Hc; [|done].
    split; [apply Forall_cons; split; [split; simpl; lia|done]|].
    split; [apply Forall_cons; split;
            [right; unfold rect; simpl; lia|done]|].
    split; [intros _; apply Forall_cons; split;
            [right; simpl; lia|done]|].
    split; [|done].
    assert (inside (alo, i, blo, j) (alo, ahi, blo, bhi)) as HinL.
    { unfold inside; simpl. lia. }
    apply Forall_app. apply Forall_app in HR as [HRa HRb].
    split; [by eapply Forall_sep_inside|].
    apply Forall_cons. split; [left; unfold rect; simpl; lia|].
    by eapply Forall_sep_inside. }
  apply IH; [done|]. split; [|split; [done|]].
  - case_decide; [|done]. apply Forall_cons. split; [|done].
    split; simpl; lia.
  - case_decide as Hc; [|done]. simpl. split; [|done].
    apply Forall_app. split; [by apply HR1|].
    apply Forall_cons. split; [right; unfold rect; simpl; lia|].
    apply Forall_app in HR as [_ HR].
    apply (Forall_sep_inside _ (alo, ahi, blo, bhi)); [|done].
    unfold inside; simpl. lia.
Qed.

(** ** [get_matching_blocks]: sorting and collapsing *)

#[local] Instance Match_le_trans : Transitive Match_le.
Proof. intros [[? ?] ?] [[? ?] ?] [[? ?] ?]; simpl. lia. Qed.

#[local] Instance Match_le_total : Total Match_le.
Proof. intros [[? ?] ?] [[? ?] ?]; simpl. lia. Qed.

(** Blocks in increasing order in [a] and in [b], each one a match,
    none before [(i0, j0)]. *)
Fixpoint chain_ok (i0 j0 : nat) (l : list Match) : Prop :=
  match l with
  | [] => True
  | m :: l' =>
      i0 ≤ m.1.1 ∧ j0 ≤ m.1.2 ∧ block_good m
      ∧ chain_ok (m.1.1 + m.2) (m.1.2 + m.2) l'
  end.

(** The same, closed by the dummy [(len(a), len(b), 0)]. *)
Fixpoint blocks_ok (i0 j0 : nat) (l : list Match) : Prop :=
  match l with
  | [] => False
  | m :: l' =>
      i0 ≤ m.1.1 ∧ j0 ≤ m.1.2
      ∧ match l' with
        | [] => m = (length a, length b, 0)
        | _ => block_good m ∧ blocks_ok (m.1.1 + m.2) (m.1.2 + m.2) l'
        end
  end.

Lemma pairwise_rect_NoDup (l : list Match) :
  Forall block_good l → pairwise sep (rect <$> l) → NoDup l.
Proof.
  induction l as [|m l IH]; [constructor|].
  rewrite Forall_cons. simpl. intros [[Hk _] Hg] [Hm Hp].
  constructor; [|by apply IH].
  intros Hin. rewrite Forall_fmap, Forall_forall in Hm.
  specialize (Hm m Hin). unfold sep, rect in Hm; simpl in Hm. lia.
Qed.

Lemma pairwise_rect_elem (l : list Match) m1 m2 :
  pairwise sep (rect <$> l) → m1 ∈ l → m2 ∈ l → m1 ≠ m2 →
  sep (rect m1) (rect m2).
Proof.
  induction l as [|m l IH]; simpl; [by intros _ ?%elem_of_nil|].
  rewrite Forall_fmap, Forall_forall. intros [Hm Hp].
  rewrite !elem_of_cons. intros [->|H1] [->|H2] Hne; try done.
  - by apply Hm.
  - apply sep_sym. by apply Hm.
  - by apply IH.
Qed.

Lemma sorted_chain (l : list Match) : ∀ i0 j0,
  StronglySorted Match_le l → NoDup l → Forall block_good l →
  (∀ m1 m2, m1 ∈ l → m2 ∈ l → m1 ≠ m2 → sep (rect m1) (rect m2)) →
  (∀ m, m ∈ l → i0 ≤ m.1.1 ∧ j0 ≤ m.1.2) →
  chain_ok i0 j0 l.
Proof.
  induction l as [|m l IH]; intros i0 j0 Hs Hnd Hg Hsep Hlo; simpl; [done|].
  apply StronglySorted_inv in Hs as [Hs Hm].
  apply NoDup_cons in Hnd as [Hnin Hnd].
  apply Forall_cons in Hg as [Hgm Hg].
  destruct (Hlo m) as [? ?]; [by left|].
  do 3 (split; [done|]). apply IH; try done.
  - intros m1 m2 Hin1 Hin2. apply Hsep; by right.
  - intros m' Hin.
    assert (m ≠ m') as Hne by (by intros ->).
    assert (sep (rect m) (rect m')) as Hsp.
    { apply Hsep; [by left|by right|done]. }
    rewrite Forall_forall in Hm, Hg.
    specialize (Hm m' Hin). destruct (Hg m' Hin) as [Hk' _].
    destruct Hgm as [Hk _].
    destruct m as [[i j] k], m' as [[i' j'] k'].
    unfold sep, rect in Hsp; simpl in *. lia.
Qed.

Lemma blocks_ok_weaken l : ∀ i0 j0 i1 j1,
  i0 ≤ i1 → j0 ≤ j1 → blocks_ok i1 j1 l → blocks_ok i0 j0 l.
Proof.
  destruct l as [|m l]; simpl; [done|].
  intros i0 j0 i1 j1 ? ? (? & ? & ?). repeat split; [lia|lia|done].
Qed.

Lemma collapse_ok l : ∀ i1 j1 k1,
  matches i1 j1 k1 → i1 + k1 ≤ length a → j1 + k1 ≤ length b →
  chain_ok (i1 + k1) (j1 + k1) l →
  blocks_ok i1 j1 (collapse a b i1 j1 k1 l).
Proof.
  induction l as [|[[i2 j2] k2] l IH]; intros i1 j1 k1 Hm Ha Hb Hc; simpl.
  - case_decide; simpl; repeat split; simpl; try done; lia.
  - destruct Hc as (Hi & Hj & [Hk2 Hm2] & Hc); simpl in *.
    destruct (matches_bound _ _ _ Hm2 Hk2).
    case_decide as Hadj.
    + destruct Hadj as [<- <-]. apply IH.
      * by apply matches_app.
      * lia.
      * lia.
      * by rewrite !Nat.add_assoc.
    + assert (blocks_ok (i1 + k1) (j1 + k1) (collapse a b i2 j2 k2 l)) as Hr.
      { eapply blocks_ok_weaken; [| |by apply IH]; lia. }
      case_decide; simpl.
      * eapply blocks_ok_weaken; [| |done]; lia.
      * repeat split; try done.
        destruct (collapse a b i2 j2 k2 l) eqn:E; [done|].
        split; [|done]. split; simpl; [lia|done].
Qed.

Lemma get_matching_blocks_ok : blocks_ok 0 0 (get_matching_blocks a b).
Proof.
  unfold get_matching_blocks.
  set (blks := mb_loop a b _ _ _ _).
  assert (mb_inv [] blks) as (_ & Hg & Hp).
  { apply mb_loop_inv; [apply chain_b_sound|].
    split; [|split; [done|]].
    - apply Forall_singleton. split; simpl; lia.
    - simpl. split; [constructor|done]. }
  simpl in Hp.
  set (sorted := merge_sort Match_le (rev blks)).
  assert (sorted ≡ₚ blks) as Hperm.
  { subst sorted. rewrite merge_sort_Permutation.
    symmetry. apply Permutation_rev. }
  apply collapse_ok; simpl; [apply matches_0|lia|lia|].
  apply sorted_chain.
  - apply StronglySorted_merge_sort; apply _.
  - rewrite Hperm. by apply pairwise_rect_NoDup.
  - by rewrite Hperm.
  - intros m1 m2. rewrite !Hperm. by apply pairwise_rect_elem.
  - intros m _. lia.
Qed.

(** ** [get_opcodes] *)

(** An opcode that agrees with [a] and [b]. *)
Definition op_ok (c : opcode) : Prop :=
  let '(t, i1, i2, j1, j2) := c in
  i1 ≤ i2 ∧ j1 ≤ j2 ∧ i2 ≤ length a ∧ j2 ≤ length b
  ∧ match t with
    | Equal => i2 - i1 = j2 - j1 ∧ matches i1 j1 (i2 - i1)
    | Delete => j1 = j2
    | Insert => i1 = i2
    | Replace => True
    end.

(** Opcodes that follow each other from [(i, j)] to [(i', j')]. *)
Fixpoint ops_ok (i j : nat) (ops : list opcode) (i' j' : nat) : Prop :=
  match ops with
  | [] => i = i' ∧ j = j'
  | c :: ops' =>
      c.1.1.1.2 = i ∧ c.1.2 = j ∧ op_ok c ∧ ops_ok c.1.1.2 c.2 ops' i' j'
  end.

Lemma ops_ok_app ops1 : ∀ i j ops2 i1 j1 i2 j2,
  ops_ok i j ops1 i1 j1 → ops_ok i1 j1 ops2 i2 j2 →
  ops_ok i j (ops1 ++ ops2) i2 j2.
Proof.
  induction ops1 as [|c ops1 IH]; intros i j ops2 i1 j1 i2 j2; simpl.
  - by intros [-> ->].
  - intros (? & ? & ? & ?) ?. do 3 (split; [done|]). by eapply IH.
Qed.

Lemma ops_ok_le ops : ∀ i j i' j',
  ops_ok i j ops i' j' → i ≤ i' ∧ j ≤ j'.
Proof.
  induction ops as [|[[[[t i1] i2] j1] j2] ops IH]; intros i j i' j'; simpl.
  - intros [-> ->]. lia.
  - intros (-> & -> & (? & ? & _) & Hr). apply IH in Hr. lia.
Qed.

Lemma opcodes_from_ok blocks : ∀ i j,
  blocks_ok i j blocks →
  ops_ok i j (opcodes_from i j blocks) (length a) (length b).
Proof.
  induction blocks as [|[[ai bj] size] blocks IH]; intros i j; simpl; [done|].
  intros (Hi & Hj & Hrest). simpl in Hi, Hj.
  assert (ai + size ≤ length a ∧ bj + size ≤ length b
          ∧ (size ≠ 0 → matches ai bj size)
          ∧ ops_ok (ai + size) (bj + size)
              (opcodes_from (ai + size) (bj + size) blocks)
              (length a) (length b)) as (Hla & Hlb & Hm & Hops).
  { destruct blocks as [|m blocks].
    - injection Hrest as -> -> ->. simpl. repeat split; try lia; done.
    - destruct Hrest as [[Hk Hm] Hrest]. simpl in Hk, Hm.
      destruct (matches_bound _ _ _ Hm Hk). repeat split; try done.
      by apply IH. }
  assert (ops_ok ai bj
            ((if decide (size = 0) then []
              else [(Equal, ai, ai + size, bj, bj + size)])
             ++ opcodes_from (ai + size) (bj + size) blocks)
            (length a) (length b)) as Heq.
  { case_decide as Hs; simpl.
    - subst size. by rewrite !Nat.add_0_r in Hops |- *.
    - do 2 (split; [done|]). split; [|done].
      repeat split; try lia.
      replace (ai + size - ai) with size by lia. by apply Hm. }
  revert Heq.
  generalize ((if decide (size = 0) then []
               else [(Equal, ai, ai + size, bj, bj + size)])
              ++ opcodes_from (ai + size) (bj + size) blocks).
  intros tl Heq. repeat case_decide; simpl.
  - do 2 (split; [done|]). split; [|done]. repeat split; lia.
  - replace j with bj in * by lia.
    do 2 (split; [done|]). split; [|done]. repeat split; lia.
  - replace i with ai in * by lia.
    do 2 (split; [done|]). split; [|done]. repeat split; lia.
  - replace i with ai by lia. replace j with bj by lia. done.
Qed.

Lemma get_opcodes_ok :
  ops_ok 0 0 (get_opcodes a b) (length a) (length b).
Proof. apply opcodes_from_ok, get_matching_blocks_ok. Qed.

(** ** [get_grouped_opcodes] *)

(** [a[i:gi] == b[j:gj]]: the lines between two groups. *)
Definition gap (i j gi gj : nat) : Prop :=
  i ≤ gi ∧ j ≤ gj ∧ gi - i = gj - j ∧ matches i j (gi - i).

(** Groups that leave out equal lines only: from [(i, j)] there is a
    gap up to the first group, and after the last group the rest of
    [a] is the rest of [b]. *)
Fixpoint groups_ok (i j : nat) (groups : list (list opcode)) : Prop :=
  match groups with
  | [] => gap i j (length a) (length b)
  | g :: groups' =>
      ∃ gi gj gi' gj',
        g ≠ [] ∧ gap i j gi gj ∧ ops_ok gi gj g gi' gj'
        ∧ groups_ok gi' gj' groups'
  end.

Lemma gap_refl i j : gap i j i j.
Proof.
  unfold gap. rewrite !Nat.sub_diag. repeat split; try lia. apply matches_0.
Qed.

Lemma gap_trans i j i1 j1 i2 j2 :
  gap i j i1 j1 → gap i1 j1 i2 j2 → gap i j i2 j2.
Proof.
  intros (? & ? & ? & Hm1) (? & ? & ? & Hm2). repeat split; try lia.
  replace (i2 - i) with ((i1 - i) + (i2 - i1)) by lia.
  apply matches_app; [done|].
  replace (i + (i1 - i)) with i1 by lia.
  replace (j + (i1 - i)) with j1 by lia. done.
Qed.

Lemma gap_sub i j gi gj d n :
  gap i j gi gj → d + n ≤ gi - i → gap (i + d) (j + d) (i + d + n) (j + d + n).
Proof.
  intros (? & ? & ? & Hm) Hle. repeat split; try lia.
  replace (i + d + n - (i + d)) with n by lia. by eapply matches_sub.
Qed.

Lemma op_equal_gap i1 i2 j1 j2 :
  op_ok (Equal, i1, i2, j1, j2) → gap i1 j1 i2 j2.
Proof. intros (? & ? & ? & ? & ? & ?). by repeat split. Qed.

Lemma gap_op_equal i j gi gj :
  gap i j gi gj → gi ≤ length a → gj ≤ length b →
  op_ok (Equal, i, gi, j, gj).
Proof. intros (? & ? & ? & ?) ? ?. by repeat split. Qed.

Lemma ops_ok_cons_equal i j gi gj ops ei ej :
  gap i j gi gj → gi ≤ length a → gj ≤ length b →
  ops_ok gi gj ops ei ej →
  ops_ok i j ((Equal, i, gi, j, gj) :: ops) ei ej.
Proof.
  intros Hg Ha Hb Hops. simpl. do 2 (split; [done|]). split; [|done].
  by apply gap_op_equal.
Qed.

Lemma group_end_ok group i j gi gj ei ej :
  gap i j gi gj → ops_ok gi gj group ei ej →
  gap ei ej (length a) (length b) →
  groups_ok i j (group_loop 0 [] group).
Proof.
  intros Hgap Hgroup Htail.
  assert (group ≠ [] → groups_ok i j [group]) as Hone.
  { intros Hne. exists gi, gj, ei, ej. by repeat (split; [done|]). }
  destruct group as [|[[[[t i1] i2] j1] j2] [|c' group]]; simpl.
  - destruct Hgroup as [-> ->]. by eapply gap_trans.
  - destruct t; try by apply Hone.
    destruct Hgroup as (Hi & Hj & Hop & <- & <-). simpl in *. subst.
    eapply gap_trans; [done|]. eapply gap_trans; [|done].
    by apply op_equal_gap.
  - destruct t; by apply Hone.
Qed.

Lemma group_loop_ok n codes : ∀ group i j gi gj ci cj ei ej,
  gap i j gi gj → ops_ok gi gj group ci cj → ops_ok ci cj codes ei ej →
  gap ei ej (length a) (length b) →
  groups_ok i j (group_loop n codes group).
Proof.
  induction codes as [|[[[[t i1] i2] j1] j2] codes IH];
    intros group i j gi gj ci cj ei ej Hgap Hgroup Hcodes Htail.
  - destruct Hcodes as [-> ->]. by eapply group_end_ok.
  - destruct Hcodes as (Hi & Hj & Hop & Hcodes). simpl in Hi, Hj, Hcodes.
    subst ci cj. simpl.
    destruct (is_equal t && bool_decide (n + n < i2 - i1)) eqn:E.
    + apply andb_true_iff in E as [Et En].
      apply bool_decide_eq_true in Et as ->.
      apply bool_decide_eq_true in En.
      pose proof (op_equal_gap _ _ _ _ Hop) as Hg.
      destruct Hop as (? & ? & ? & ? & Hlen & Hm).
      assert (i2 `min` (i1 + n) = i1 + n) as -> by lia.
      assert (j2 `min` (j1 + n) = j1 + n) as -> by lia.
      assert (i1 `max` (i2 - n) = i2 - n) as -> by lia.
      assert (j1 `max` (j2 - n) = j2 - n) as -> by lia.
      exists gi, gj, (i1 + n), (j1 + n).
      split; [by destruct group|]. split; [done|]. split.
      { eapply ops_ok_app; [done|].
        apply ops_ok_cons_equal; [|lia|lia|done].
        pose proof (gap_sub _ _ _ _ 0 n Hg ltac:(lia)) as Hs.
        by rewrite !Nat.add_0_r in Hs. }
      assert (gap (i2 - n) (j2 - n) i2 j2) as Hlast.
      { pose proof (gap_sub _ _ _ _ (i2 - i1 - n) n Hg ltac:(lia)) as Hs.
        replace (i1 + (i2 - i1 - n)) with (i2 - n) in Hs by lia.
        replace (j1 + (i2 - i1 - n)) with (j2 - n) in Hs by lia.
        replace (i2 - n + n) with i2 in Hs by lia.
        replace (j2 - n + n) with j2 in Hs by lia. done. }
      eapply (IH _ (i1 + n) (j1 + n) (i2 - n) (j2 - n) i2 j2); try done.
      * pose proof (gap_sub _ _ _ _ n (i2 - i1 - n - n) Hg ltac:(lia)) as Hs.
        replace (i1 + n + (i2 - i1 - n - n)) with (i2 - n) in Hs by lia.
        replace (j1 + n + (i2 - i1 - n - n)) with (j2 - n) in Hs by lia.
        done.
      * by apply ops_ok_cons_equal.
    + eapply IH; try done. eapply ops_ok_app; [done|].
      simpl. by repeat (split; [done|]).
Qed.

Lemma fix_first_ok n codes ei ej :
  ops_ok 0 0 codes ei ej →
  ∃ ci cj, gap 0 0 ci cj ∧ ops_ok ci cj (fix_first n codes) ei ej.
Proof.
  intros Hops.
  assert (∃ ci cj, gap 0 0 ci cj ∧ ops_ok ci cj codes ei ej) as Hsame.
  { exists 0, 0. split; [apply gap_refl|done]. }
  destruct codes as [|[[[[t i1] i2] j1] j2] codes]; [exact Hsame|].
  destruct t; try exact Hsame. clear Hsame. simpl.
  destruct Hops as (Hi & Hj & Hop & Hops). simpl in Hi, Hj, Hops. subst.
  pose proof (op_equal_gap _ _ _ _ Hop) as Hg.
  destruct Hop as (? & ? & ? & ? & Hlen & Hm).
  exists (0 `max` (i2 - n)), (0 `max` (j2 - n)).
  assert (0 `max` (j2 - n) = 0 `max` (i2 - n)) as -> by lia.
  assert (j2 = i2) as -> by lia.
  pose proof (gap_sub _ _ _ _ 0 (0 `max` (i2 - n)) Hg ltac:(lia)) as Hs1.
  pose proof (gap_sub _ _ _ _ (0 `max` (i2 - n))
                (i2 - 0 `max` (i2 - n)) Hg ltac:(lia)) as Hs2.
  simpl in Hs1, Hs2.
  replace (i2 - n + (i2 - (i2 - n))) with i2 in Hs2 by lia.
  split; [done|]. by apply ops_ok_cons_equal.
Qed.

Lemma fix_last_cons n (c1 c2 : opcode) codes :
  fix_last n (c1 :: c2 :: codes) = c1 :: fix_last n (c2 :: codes).
Proof. by destruct c1 as [[[[[] ?] ?] ?] ?]. Qed.

Lemma fix_last_ok n codes : ∀ ci cj,
  ops_ok ci cj codes (length a) (length b) →
  ∃ ei ej, ops_ok ci cj (fix_last n codes) ei ej
           ∧ gap ei ej (length a) (length b).
Proof.
  induction codes as [|[[[[t i1] i2] j1] j2] codes IH]; intros ci cj Hops.
  { exists ci, cj. destruct Hops as [-> ->]. split; [done|apply gap_refl]. }
  destruct Hops as (Hi & Hj & Hop & Hops). simpl in Hi, Hj, Hops. subst.
  destruct codes as [|c codes].
  - destruct Hops as [-> ->].
    assert (∃ ei ej, ops_ok ci cj [(t, ci, length a, cj, length b)] ei ej
                     ∧ gap ei ej (length a) (length b)) as Hsame.
    { exists (length a), (length b). split; [|apply gap_refl].
      simpl. by repeat (split; [done|]). }
    destruct t; try exact Hsame. clear Hsame. cbn [fix_last].
    pose proof (op_equal_gap _ _ _ _ Hop) as Hg.
    destruct Hop as (? & ? & ? & ? & Hlen & Hm).
    exists (length a `min` (ci + n)), (length b `min` (cj + n)).
    assert (length b `min` (cj + n)
            = cj + (length a `min` (ci + n) - ci)) as -> by lia.
    set (d := length a `min` (ci + n) - ci).
    assert (length a `min` (ci + n) = ci + d) as -> by lia.
    pose proof (gap_sub _ _ _ _ 0 d Hg ltac:(lia)) as Hs1.
    pose proof (gap_sub _ _ _ _ d (length a - ci - d) Hg ltac:(lia)) as Hs2.
    rewrite !Nat.add_0_r in Hs1.
    replace (ci + d + (length a - ci - d)) with (length a) in Hs2 by lia.
    replace (cj + d + (length a - ci - d)) with (length b) in Hs2 by lia.
    split; [|done]. apply ops_ok_cons_equal; [done|lia|lia|done].
  - destruct (IH _ _ Hops) as (ei & ej & Hr & Hg). exists ei, ej.
    split; [|done].
    rewrite fix_last_cons. by repeat (split; [done|]).
Qed.

Lemma get_grouped_opcodes_ok n :
  groups_ok 0 0 (get_grouped_opcodes a b n).
Proof.
  unfold get_grouped_opcodes. pose proof get_opcodes_ok as Hops.
  destruct (get_opcodes a b) as [|c codes] eqn:E.
  - destruct Hops as [Ha Hb].
    assert (gap 0 0 (length a) (length b)) as Hg.
    { rewrite <- Ha, <- Hb. apply gap_refl. }
    by destruct n as [|n]; simpl.
  - destruct (fix_first_ok n _ _ _ Hops) as (ci & cj & Hg & Hops1).
    destruct (fix_last_ok n _ _ _ Hops1) as (ei & ej & Hops2 & Htail).
    eapply group_loop_ok; [done| |done|done]. done.
Qed.

(** ** The bounds on the loops are enough *)

Lemma extend_right_fuel junk ahi bhi fuel : ∀ besti bestj bestsize extra,
  ahi - (besti + bestsize) ≤ fuel →
  extend_right a b (fuel + extra) junk ahi bhi besti bestj bestsize
  = extend_right a b fuel junk ahi bhi besti bestj bestsize.
Proof.
  induction fuel as [|fuel IH]; intros besti bestj bestsize extra Hle.
  - destruct extra as [|extra]; simpl; [done|].
    rewrite bool_decide_eq_false_2 by lia. done.
  - simpl. destruct (bool_decide _ && _ && _) eqn:E; [|done].
    apply andb_true_iff in E as [E _]. apply andb_true_iff in E as [E _].
    apply bool_decide_eq_true in E. apply IH. lia.
Qed.

(** What the regions of the queue can still cost in turns of the loop. *)
Definition queue_cost (queue : list region) : nat :=
  sum_list ((λ r : region, 2 * (r.1.1.2 - r.1.1.1) + 1) <$> queue).

Lemma queue_cost_cons r queue :
  queue_cost (r :: queue) = 2 * (r.1.1.2 - r.1.1.1) + 1 + queue_cost queue.
Proof. done. Qed.

Lemma mb_loop_fuel b2j fuel : ∀ queue blocks extra,
  b2j_sound b2j → Forall wf_region queue → queue_cost queue ≤ fuel →
  mb_loop a b (fuel + extra) b2j queue blocks
  = mb_loop a b fuel b2j queue blocks.
Proof.
  induction fuel as [|fuel IH]; intros queue blocks extra Hb2j Hwf Hcost.
  - destruct queue as [|r queue]; [by destruct extra|].
    rewrite queue_cost_cons in Hcost. lia.
  - destruct queue as [|[[[alo ahi] blo] bhi] queue]; [done|].
    apply Forall_cons in Hwf as [[Ha Hb] Hwf]. cbn [fst snd] in Ha, Hb.
    rewrite queue_cost_cons in Hcost. cbn [fst snd] in Hcost.
    cbn [Nat.add mb_loop].
    pose proof (find_longest_match_ok b2j Hb2j alo ahi blo bhi Ha Hb) as Hbest.
    destruct (find_longest_match a b b2j alo ahi blo bhi) as [[i j] k].
    destruct Hbest as (? & ? & ? & ? & _); cbn [fst snd] in *.
    case_decide; [apply IH; [done|done|lia]|].
    apply IH; [done| |].
    + repeat case_decide; repeat (apply Forall_cons; split); try done;
        split; cbn [fst snd]; lia.
    + repeat case_decide; rewrite ?queue_cost_cons; cbn [fst snd]; lia.
Qed.

(** The fuel [get_matching_blocks] gives the work loop empties the
    queue: more fuel finds the same blocks. *)
Lemma get_matching_blocks_fuel extra :
  mb_loop a b (2 * length a + 1 + extra) (chain_b b)
    [(0, length a, 0, length b)] []
  = mb_loop a b (2 * length a + 1) (chain_b b)
      [(0, length a, 0, length b)] [].
Proof.
  apply mb_loop_fuel; [apply chain_b_sound| |].
  - apply Forall_singleton. split; simpl; lia.
  - rewrite queue_cost_cons. cbn [fst snd]. unfold queue_cost. simpl. lia.
Qed.

End matcher_facts.

(** * Applying the diff gives the new lines *)

Section patch_facts.

Definition no_digit_ahead (rest : str) : Prop :=
  match rest with
  | c :: _ => is_digit c = false
  | [] => True
  end.

Lemma read_nat_digits u : ∀ rest acc,
  no_digit_ahead rest →
  read_nat (uint_digits u ++ rest) acc = (Nat.of_uint_acc u acc, rest).
Proof.
  induction u as [|u IH|u IH|u IH|u IH|u IH|u IH|u IH|u IH|u IH|u IH];
    intros rest acc Hrest;
    [destruct rest as [|c rest]; simpl in *; [done|by rewrite Hrest]|..];
    cbn [uint_digits app read_nat Nat.of_uint_acc];
    (replace (is_digit _) with true by done);
    rewrite IH by done; rewrite Nat.tail_mul_spec; do 2 f_equal; lia.
Qed.

Lemma read_nat_format_int n rest :
  no_digit_ahead rest → read_nat (format_int n ++ rest) 0 = (n, rest).
Proof.
  intros Hrest. unfold format_int. rewrite read_nat_digits by done.
  f_equal. apply DecimalNat.Unsigned.of_to.
Qed.

Lemma hunk_start_header start stop tail :
  start ≤ stop →
  hunk_start (lit "@@ -" ++ format_range_unified start stop
              ++ lit " +" ++ tail) = Some start.
Proof.
  intros Hle. unfold format_range_unified.
  assert (∀ x, lit "@@ -" ++ x = 64%N :: 64%N :: 32%N :: 45%N :: x) as ->
    by done.
  assert (∀ x, lit " +" ++ x = 32%N :: 43%N :: x) as -> by done.
  assert (∀ x, lit "," ++ x = 44%N :: x) as Hcomma by done.
  unfold hunk_start. case_decide as H1.
  - rewrite read_nat_format_int by done. f_equal. lia.
  - rewrite <- !app_assoc. rewrite read_nat_format_int by (by rewrite Hcomma).
    rewrite Hcomma. rewrite read_nat_format_int by done.
    f_equal. repeat case_decide; lia.
Qed.

Context (a b : list str).

Lemma patch_context (ls : list str) : ∀ d rest pos,
  patch_lines (((λ line : str, lit " " ++ line) <$> ls) ++ d) rest pos
  = (ls ++.) <$> patch_lines d (drop (length ls) rest) (pos + length ls).
Proof.
  assert (∀ x : str, lit " " ++ x = 32%N :: x) as Hc by done.
  induction ls as [|l ls IH]; intros d rest pos.
  - simpl. rewrite Nat.add_0_r, drop_0. by destruct (patch_lines d rest pos).
  - rewrite fmap_cons, <- app_comm_cons, Hc. cbn [patch_lines length].
    rewrite IH, drop_drop.
    replace (S pos + length ls) with (pos + S (length ls)) by lia.
    by destruct (patch_lines d _ _).
Qed.

Lemma patch_delete (ls : list str) : ∀ d rest pos,
  patch_lines (((λ line : str, lit "-" ++ line) <$> ls) ++ d) rest pos
  = patch_lines d (drop (length ls) rest) (pos + length ls).
Proof.
  assert (∀ x : str, lit "-" ++ x = 45%N :: x) as Hc by done.
  induction ls as [|l ls IH]; intros d rest pos.
  - simpl. by rewrite Nat.add_0_r, drop_0.
  - rewrite fmap_cons, <- app_comm_cons, Hc. cbn [patch_lines length].
    rewrite IH, drop_drop.
    by replace (S pos + length ls) with (pos + S (length ls)) by lia.
Qed.

Lemma patch_insert (ls : list str) : ∀ d rest pos,
  patch_lines (((λ line : str, lit "+" ++ line) <$> ls) ++ d) rest pos
  = (ls ++.) <$> patch_lines d rest pos.
Proof.
  assert (∀ x : str, lit "+" ++ x = 43%N :: x) as Hc by done.
  induction ls as [|l ls IH]; intros d rest pos.
  - simpl. by destruct (patch_lines d rest pos).
  - rewrite fmap_cons, <- app_comm_cons, Hc. cbn [patch_lines].
    rewrite IH. by destruct (patch_lines d _ _).
Qed.

Lemma length_slice {X} (l : list X) lo hi :
  hi ≤ length l → length (slice l lo hi) = hi - lo.
Proof. intros Hle. unfold slice. rewrite length_take, length_drop. lia. Qed.

Lemma slice_nil {X} (l : list X) lo : slice l lo lo = [].
Proof. unfold slice. by rewrite Nat.sub_diag. Qed.

Lemma slice_app {X} (l : list X) lo mid hi :
  lo ≤ mid → mid ≤ hi → slice l lo mid ++ slice l mid hi = slice l lo hi.
Proof.
  intros H1 H2. unfold slice.
  replace (drop mid l) with (drop (mid - lo) (drop lo l))
    by (rewrite drop_drop; f_equal; lia).
  rewrite take_take_drop. f_equal. lia.
Qed.

Lemma slice_drop {X} (l : list X) lo hi :
  lo ≤ hi → slice l lo hi ++ drop hi l = drop lo l.
Proof.
  intros Hle. unfold slice.
  replace (drop hi l) with (drop (hi - lo) (drop lo l))
    by (rewrite drop_drop; f_equal; lia).
  apply take_drop.
Qed.

Lemma gap_slice i j gi gj :
  gap a b i j gi gj → slice a i gi = slice b j gj.
Proof.
  intros (? & ? & ? & Hm). apply matches_slice in Hm.
  replace (i + (gi - i)) with gi in Hm by lia.
  replace (j + (gi - i)) with gj in Hm by lia. done.
Qed.

Lemma patch_opcode c d :
  op_ok a b c →
  patch_lines (opcode_lines a b c ++ d) (drop c.1.1.1.2 a) c.1.1.1.2
  = (slice b c.1.2 c.2 ++.) <$> patch_lines d (drop c.1.1.2 a) c.1.1.2.
Proof.
  destruct c as [[[[t i1] i2] j1] j2]. intros (? & ? & ? & ? & Ht).
  cbn [fst snd].
  assert (drop (length (slice a i1 i2)) (drop i1 a) = drop i2 a) as Hdrop.
  { rewrite length_slice, drop_drop by done. f_equal. lia. }
  assert (i1 + length (slice a i1 i2) = i2) as Hpos.
  { rewrite length_slice by done. lia. }
  destruct t; unfold opcode_lines; cbv beta iota.
  - rewrite <- app_assoc, patch_delete, patch_insert. by rewrite Hdrop, Hpos.
  - rewrite app_nil_r, patch_delete, Hdrop, Hpos. subst j2.
    rewrite slice_nil. by destruct (patch_lines d _ _).
  - rewrite app_nil_l, patch_insert. by subst i2.
  - rewrite patch_context, Hdrop, Hpos. destruct Ht as [Hlen Hm].
    do 2 f_equal. apply gap_slice. by repeat split.
Qed.

Lemma patch_ops g : ∀ gi gj gi' gj' d,
  ops_ok a b gi gj g gi' gj' →
  patch_lines ((g ≫= opcode_lines a b) ++ d) (drop gi a) gi
  = (slice b gj gj' ++.) <$> patch_lines d (drop gi' a) gi'.
Proof.
  induction g as [|c g IH]; intros gi gj gi' gj' d.
  - intros [-> ->]. simpl. rewrite slice_nil. by destruct (patch_lines d _ _).
  - intros (<- & <- & Hop & Hops). pose proof (ops_ok_le _ _ _ _ _ _ _ Hops).
    rewrite bind_cons, <- app_assoc, patch_opcode by done.
    rewrite (IH _ _ _ _ _ Hops).
    destruct c as [[[[t i1] i2] j1] j2].
    destruct Hop as (? & ? & _). cbn [fst snd] in *.
    rewrite <- (slice_app b j1 j2 gj') by lia.
    destruct (patch_lines d _ _); simpl; [|done]. by rewrite <- app_assoc.
Qed.

Lemma ops_ok_ends g : ∀ gi gj gi' gj' dflt,
  ops_ok a b gi gj g gi' gj' → g ≠ [] →
  (default dflt (head g)).1.1.1.2 = gi
  ∧ (default dflt (last g)).1.1.2 = gi'.
Proof.
  induction g as [|c g IH]; intros gi gj gi' gj' dflt; [done|].
  intros (Hi & Hj & Hop & Hops) _. split; [done|].
  destruct g as [|c' g]; [by destruct Hops as [<- _]|].
  change (last (c :: c' :: g)) with (last (c' :: g)).
  by eapply IH.
Qed.

Lemma patch_hunk_header start stop range2 body rest pos :
  start ≤ stop →
  patch_lines
    ((lit "@@ -" ++ format_range_unified start stop ++ lit " +" ++ range2)
     :: body) rest pos
  = (take (start - pos) rest ++.)
    <$> patch_lines body (drop (start - pos) rest) start.
Proof.
  intros Hle. pose proof (hunk_start_header start stop range2 Hle) as Hstart.
  assert (∀ x, lit "@@ -" ++ x = 64%N :: 64%N :: 32%N :: 45%N :: x) as E
    by done.
  rewrite E in *. cbn [patch_lines]. by rewrite Hstart.
Qed.

Lemma patch_groups groups : ∀ i j,
  groups_ok a b i j groups →
  patch_lines (groups ≫= hunk_lines a b []) (drop i a) i
  = Some (drop j b).
Proof.
  induction groups as [|g groups IH]; intros i j.
  - intros Hg. simpl. f_equal. pose proof (gap_slice _ _ _ _ Hg) as Hs.
    destruct Hg as (? & ? & ? & _).
    rewrite <- (slice_drop a i (length a)), <- (slice_drop b j (length b))
      by done.
    by rewrite Hs, !drop_all.
  - intros (gi & gj & gi' & gj' & Hne & Hgap & Hops & Hrest).
    destruct (ops_ok_ends _ _ _ _ _ (Equal, 0, 0, 0, 0) Hops Hne)
      as [Hfirst Hlast].
    pose proof (ops_ok_le _ _ _ _ _ _ _ Hops) as [? ?].
    pose proof (gap_slice _ _ _ _ Hgap) as Hs.
    destruct Hgap as (? & ? & ? & _).
    rewrite bind_cons. unfold hunk_lines at 1.
    match goal with
    | |- context [lit "@@ -" ++ format_range_unified ?x ?y ++ _] =>
        replace x with gi by (symmetry; exact Hfirst);
        replace y with gi' by (symmetry; exact Hlast)
    end.
    rewrite <- app_comm_cons, patch_hunk_header by lia.
    rewrite drop_drop. replace (i + (gi - i)) with gi by lia.
    rewrite patch_ops with (gi' := gi') (gj := gj) (gj' := gj') by done.
    rewrite IH with (j := gj') by done. simpl. f_equal.
    change (take (gi - i) (drop i a)) with (slice a i gi). rewrite Hs.
    rewrite slice_drop, slice_drop by done. done.
Qed.

Lemma patch_unified_diff fromfile tofile :
  apply_unified_diff (unified_diff a b fromfile tofile []) a = Some b.
Proof.
  unfold unified_diff.
  pose proof (patch_groups _ 0 0 (get_grouped_opcodes_ok a b 3)) as Hp.
  rewrite !drop_0 in Hp.
  by destruct (get_grouped_opcodes a b 3) as [|g groups].
Qed.

(** A diff that is empty stands for no change at all. *)
Lemma unified_diff_nil_inv fromfile tofile :
  unified_diff a b fromfile tofile [] = [] → a = b.
Proof.
  intros Hnil. pose proof (patch_unified_diff fromfile tofile) as Hp.
  rewrite Hnil in Hp. simpl in Hp. by injection Hp.
Qed.

End patch_facts.

(** * Identical sequences have an empty diff *)

Section identical_facts.
Context {A : Type} `{Countable A}.

(** The positions of [x] in [l], counted from [first]. *)
Fixpoint positions (x : A) (first : nat) (l : list A) : list nat :=
  match l with
  | [] => []
  | y :: l' =>
      (if decide (y = x) then [first] else []) ++ positions x (S first) l'
  end.

Lemma elem_of_positions x l : ∀ first j,
  j ∈ positions x first l ↔ first ≤ j ∧ l !! (j - first) = Some x.
Proof.
  induction l as [|y l IH]; intros first j; simpl.
  { rewrite elem_of_nil. split; [done|]. by intros [_ Hl]. }
  rewrite elem_of_app, IH. case_decide as Hy.
  - subst y. rewrite list_elem_of_singleton. split.
    + intros [->|[Hle Hl]].
      * by rewrite Nat.sub_diag.
      * split; [lia|]. by replace (j - first) with (S (j - S first)) by lia.
    + intros [Hle Hl]. destruct (decide (j = first)) as [->|]; [by left|].
      right. split; [lia|].
      by replace (j - first) with (S (j - S first)) in Hl by lia.
  - rewrite elem_of_nil. split.
    + intros [[]|[Hle Hl]]. split; [lia|].
      by replace (j - first) with (S (j - S first)) by lia.
    + intros [Hle Hl]. right.
      destruct (decide (j = first)) as [->|].
      { rewrite Nat.sub_diag in Hl. simpl in Hl. congruence. }
      split; [lia|].
      by replace (j - first) with (S (j - S first)) in Hl by lia.
Qed.

Lemma positions_sorted x l : ∀ first,
  StronglySorted lt (positions x first l).
Proof.
  induction l as [|y l IH]; intros first; simpl; [constructor|].
  case_decide; simpl; [|done]. constructor; [done|].
  apply Forall_forall. intros j Hj. apply elem_of_positions in Hj. lia.
Qed.

Lemma chain_b_enter_lookup rest : ∀ first (m : gmap A (list nat)) x,
  chain_b_enter first rest m !! x
  = match positions x first rest with
    | [] => m !! x
    | ps => Some (default [] (m !! x) ++ ps)
    end.
Proof.
  induction rest as [|elt rest IH]; intros first m x; simpl; [done|].
  rewrite IH. destruct (decide (elt = x)) as [->|Hne]; simpl.
  - rewrite lookup_insert_eq. simpl.
    destruct (positions x (S first) rest); [done|].
    by rewrite <- app_assoc.
  - by rewrite lookup_insert_ne.
Qed.

Lemma chain_b_lookup (b : list A) x js :
  chain_b b !! x = Some js → js = positions x 0 b.
Proof.
  unfold chain_b. intros Hx.
  assert (chain_b_enter 0 b ∅ !! x = Some js) as Hx'.
  { case_decide; [|done]. by apply map_lookup_filter_Some in Hx as [Hx _]. }
  rewrite chain_b_enter_lookup, lookup_empty in Hx'.
  destruct (positions x 0 b); [done|]. by injection Hx'.
Qed.

Context (a : list A).

(** With [b = a]: the cell [(i, j)] of the table that
    [find_longest_match] fills is live when [a[i] == a[j]] and the
    element is indexed in [b2j] (it is not popular). *)
Definition cell (i j : nat) : bool :=
  match a !! i, a !! j with
  | Some x, Some y => bool_decide (x = y ∧ is_Some (chain_b a !! x))
  | _, _ => false
  end.

(** The length of the run of live cells that ends at [(i, j)]. *)
Fixpoint run (i j : nat) {struct i} : nat :=
  if cell i j then
    S (match i with
       | 0 => 0
       | S i' => match j with 0 => 0 | S j' => run i' j' end
       end)
  else 0.

Definition run_before (i j : nat) : nat :=
  match i, j with
  | S i', S j' => run i' j'
  | _, _ => 0
  end.

Lemma run_eq i j : run i j = if cell i j then S (run_before i j) else 0.
Proof. by destruct i. Qed.

Lemma cell_diag_l i j : cell i j = true → cell i i = true.
Proof.
  unfold cell. destruct (a !! i) as [x|]; [|done].
  destruct (a !! j) as [y|]; [|done].
  rewrite !bool_decide_eq_true. by intros [-> ?].
Qed.

Lemma cell_diag_r i j : cell i j = true → cell j j = true.
Proof.
  unfold cell. destruct (a !! i) as [x|]; [|done].
  destruct (a !! j) as [y|]; [|done].
  rewrite !bool_decide_eq_true. intros [-> ?]. done.
Qed.

Lemma run_le_diag i : ∀ j, run i j ≤ run i i ∧ run i j ≤ run j j.
Proof.
  assert (∀ i0 j0, cell i0 j0 = false → run i0 j0 = 0) as Hdead.
  { intros i0 j0 E. by rewrite run_eq, E. }
  assert (∀ i0 j0, cell i0 j0 = true →
            run i0 j0 = S (run_before i0 j0)
            ∧ run i0 i0 = S (run_before i0 i0)
            ∧ run j0 j0 = S (run_before j0 j0)) as Hlive.
  { intros i0 j0 E. rewrite !run_eq.
    by rewrite E, (cell_diag_l _ _ E), (cell_diag_r _ _ E). }
  induction i as [|i IH]; intros j.
  - destruct (cell 0 j) eqn:E; [|rewrite (Hdead _ _ E); lia].
    destruct (Hlive _ _ E) as (-> & -> & ->). simpl. lia.
  - destruct (cell (S i) j) eqn:E; [|rewrite (Hdead _ _ E); lia].
    destruct (Hlive _ _ E) as (-> & -> & ->).
    destruct j as [|j]; simpl; [lia|]. destruct (IH j). lia.
Qed.

(** The positions the inner loop visits in row [i]. *)
Definition row_js (i : nat) : list nat :=
  match a !! i with
  | Some x => default [] (chain_b a !! x)
  | None => []
  end.

Lemma elem_of_row_js i j : j ∈ row_js i ↔ cell i j = true.
Proof.
  unfold row_js, cell. destruct (a !! i) as [x|] eqn:Hi;
    [|by rewrite elem_of_nil].
  destruct (chain_b a !! x) as [js|] eqn:Hx; simpl.
  - rewrite (chain_b_lookup _ _ _ Hx), elem_of_positions, Nat.sub_0_r.
    destruct (a !! j) as [y|]; [|split; [by intros [_ ?]|done]].
    rewrite bool_decide_eq_true. split.
    + intros [_ [= ->]]. split; [done|]. by eexists.
    + intros [-> _]. split; [lia|done].
  - rewrite elem_of_nil. destruct (a !! j) as [y|]; [|done].
    split; [done|]. rewrite bool_decide_eq_true. intros [_ [? ?]]. done.
Qed.

Lemma row_js_sorted i : StronglySorted lt (row_js i).
Proof.
  unfold row_js. destruct (a !! i) as [x|]; [|constructor].
  destruct (chain_b a !! x) as [js|] eqn:Hx; simpl; [|constructor].
  rewrite (chain_b_lookup _ _ _ Hx). apply positions_sorted.
Qed.

Lemma cell_lt i j : cell i j = true → i < length a ∧ j < length a.
Proof.
  unfold cell. destruct (a !! i) as [x|] eqn:Hi; [|done].
  destruct (a !! j) as [y|] eqn:Hj; [|done]. intros _.
  split; by eapply lookup_lt_Some.
Qed.

Definition row_exact (i : nat) (j2len : gmap nat nat) : Prop :=
  ∀ j, j2lenget j2len j = run_before i j.

Lemma flm_inner_map i bhi j2len js : ∀ newj2len best j',
  (∀ j, j ∈ js → j < bhi) →
  (flm_inner i 0 bhi j2len js newj2len best).1 !! j'
  = if decide (j' ∈ js) then Some (j2lenget j2len j' + 1)
    else newj2len !! j'.
Proof.
  induction js as [|j js IH]; intros newj2len best j' Hjs; cbn [flm_inner].
  { by rewrite decide_False by apply not_elem_of_nil. }
  case_decide; [lia|]. case_decide as Hhi.
  { specialize (Hjs j ltac:(by left)). lia. }
  rewrite IH by (intros; apply Hjs; by right).
  destruct (decide (j' ∈ js)) as [Hin|Hnin].
  - rewrite decide_True by (by right). done.
  - destruct (decide (j = j')) as [->|Hne].
    + rewrite decide_True by (by left). by rewrite lookup_insert_eq.
    + rewrite decide_False
        by (intros [Heq|Hin']%elem_of_cons; [by subst|done]).
      by rewrite lookup_insert_ne.
Qed.

Definition on_diag (m : Match) : Prop := m.1.1 = m.1.2.

Lemma flm_inner_diag i j2len js : ∀ newj2len best,
  row_exact i j2len → StronglySorted lt js →
  (∀ j, j ∈ js → cell i j = true) →
  on_diag best → (∀ i', i' < i → run i' i' ≤ best.2) →
  run i i ≤ best.2 ∨ i ∈ js →
  on_diag (flm_inner i 0 (length a) j2len js newj2len best).2
  ∧ ∀ i', i' ≤ i →
      run i' i' ≤ (flm_inner i 0 (length a) j2len js newj2len best).2.2.
Proof.
  induction js as [|j js IH]; intros newj2len best Hrow Hsort Hjs Hd Hlt Hi;
    cbn [flm_inner snd].
  { split; [done|]. intros i' Hi'. destruct Hi as [Hi|Hi].
    - destruct (decide (i' = i)) as [->|]; [done|]. apply Hlt. lia.
    - by apply elem_of_nil in Hi. }
  apply StronglySorted_inv in Hsort as [Hsort Hhd].
  pose proof (Hjs j ltac:(by left)) as Hcell.
  destruct (cell_lt _ _ Hcell) as [_ Hjlt].
  destruct (decide (j < 0)); [lia|].
  destruct (decide (length a ≤ j)); [lia|].
  assert (j2lenget j2len j + 1 = run i j) as ->.
  { rewrite run_eq, Hcell, Hrow. lia. }
  destruct (run_le_diag i j) as [Hri Hrj].
  apply IH; try done.
  - intros j' Hj'. apply Hjs. by right.
  - case_decide; [|done]. destruct (decide (j = i)) as [->|Hne].
    { unfold on_diag. done. }
    exfalso. destruct (decide (j < i)) as [Hlt'|Hge].
    + specialize (Hlt j Hlt'). lia.
    + destruct Hi as [Hi|Hi]; [lia|].
      apply elem_of_cons in Hi as [->|Hi]; [done|].
      rewrite Forall_forall in Hhd. specialize (Hhd i Hi). lia.
  - intros i' Hi'. specialize (Hlt i' Hi'). case_decide; simpl; lia.
  - destruct (decide (j = i)) as [->|Hne].
    { left. case_decide; simpl; lia. }
    destruct Hi as [Hi|Hi].
    + left. case_decide; simpl; lia.
    + right. apply elem_of_cons in Hi as [->|Hi]; done.
Qed.

Lemma flm_outer_diag range : ∀ i0 j2len best,
  range = seq i0 (length range) → i0 + length range ≤ length a →
  row_exact i0 j2len → on_diag best →
  (∀ i', i' < i0 → run i' i' ≤ best.2) →
  on_diag (flm_outer a (chain_b a) 0 (length a) range j2len best).
Proof.
  induction range as [|i range IH]; intros i0 j2len best Hseq Hlen Hrow
    Hd Hlt; simpl; [done|].
  simpl in Hseq, Hlen. injection Hseq as -> Hseq.
  fold (row_js i0).
  pose proof (flm_inner_map i0 (length a) j2len (row_js i0) ∅ best) as Hmap.
  pose proof (flm_inner_diag i0 j2len (row_js i0) ∅ best Hrow
                (row_js_sorted i0)) as Hdiag.
  destruct (flm_inner i0 0 (length a) j2len (row_js i0) ∅ best)
    as [newj2len best'].
  simpl in Hmap, Hdiag.
  destruct Hdiag as [Hd' Hlt']; try done.
  { intros j. apply elem_of_row_js. }
  { destruct (cell i0 i0) eqn:E.
    - right. by apply elem_of_row_js.
    - left. rewrite run_eq, E. lia. }
  apply (IH (S i0)); try done; try lia.
  - intros [|j]; simpl; [done|].
    rewrite Hmap by (intros j' Hj'; apply elem_of_row_js in Hj';
                     by destruct (cell_lt _ _ Hj')).
    rewrite run_eq. case_decide as Hin.
    + apply elem_of_row_js in Hin. rewrite Hin. simpl. rewrite Hrow. lia.
    + rewrite lookup_empty. simpl.
      destruct (cell i0 j) eqn:E; [|done].
      apply elem_of_row_js in E. done.
  - intros i' Hi'. apply Hlt'. lia.
Qed.

Lemma junk_at_false j : junk_at a j = false.
Proof.
  unfold junk_at, isbjunk, bjunk. destruct (a !! j); [|done].
  apply bool_decide_eq_false. set_solver.
Qed.

Lemma same_elt_diag j : j < length a → same_elt a a j j = true.
Proof.
  intros Hj. apply same_elt_true.
  destruct (lookup_lt_is_Some_2 a j Hj) as [x Hx]. eauto.
Qed.

Lemma extend_left_diag d : ∀ s,
  d ≤ length a → extend_left a a false 0 0 d d s = (0, 0, s + d).
Proof.
  induction d as [|d IH]; intros s Hd; simpl.
  { by rewrite Nat.add_0_r. }
  rewrite junk_at_false, same_elt_diag by lia. simpl.
  rewrite IH by lia. f_equal. lia.
Qed.

Lemma extend_right_diag fuel : ∀ s,
  s + fuel = length a →
  extend_right a a fuel false (length a) (length a) 0 0 s
  = (0, 0, length a).
Proof.
  induction fuel as [|fuel IH]; intros s Hs; simpl.
  { f_equal. lia. }
  rewrite junk_at_false, same_elt_diag by lia.
  rewrite bool_decide_eq_true_2 by lia. simpl.
  apply IH. lia.
Qed.

Lemma find_longest_match_identical :
  find_longest_match a a (chain_b a) 0 (length a) 0 (length a)
  = (0, 0, length a).
Proof.
  unfold find_longest_match.
  set (best := flm_outer _ _ _ _ _ _ _).
  assert (on_diag best) as Hd.
  { apply (flm_outer_diag _ 0); rewrite ?length_seq; try done; try lia.
    by intros [|j]. }
  assert (best_ok a a 0 (length a) 0 (length a) best)
    as (_ & Hle & _ & _ & _).
  { apply (flm_outer_ok a a _ (chain_b_sound a) _ _ _ _ _ 0);
      rewrite ?length_seq; try done; try lia.
    unfold best_ok; simpl. repeat split; try lia. apply matches_0. }
  destruct best as [[d d'] s]. unfold on_diag in Hd. simpl in Hd, Hle.
  subst d'. unfold extend at 2. simpl.
  rewrite extend_left_diag by lia.
  rewrite extend_right_diag by lia.
  unfold extend. simpl. by rewrite Nat.sub_diag.
Qed.

Lemma mb_loop_nil fuel (b2j : gmap A (list nat)) blocks :
  mb_loop a a fuel b2j [] blocks = blocks.
Proof. by destruct fuel. Qed.

Lemma get_opcodes_identical :
  get_opcodes a a
  = if decide (length a = 0) then []
    else [(Equal, 0, length a, 0, length a)].
Proof.
  unfold get_opcodes, get_matching_blocks.
  replace (2 * length a + 1) with (S (2 * length a)) by lia.
  cbn [mb_loop]. rewrite find_longest_match_identical.
  destruct (decide (length a = 0)) as [Hz|Hnz].
  - rewrite mb_loop_nil. simpl. rewrite Hz. simpl. done.
  - rewrite decide_False by lia. rewrite decide_False by lia.
    rewrite mb_loop_nil. simpl.
    rewrite decide_False by done. simpl.
    repeat (first [rewrite decide_False by lia|rewrite decide_True by lia]).
    simpl.
    repeat (first [rewrite decide_False by lia|rewrite decide_True by lia]).
    done.
Qed.

Lemma get_grouped_opcodes_identical :
  get_grouped_opcodes a a 3 = [].
Proof.
  unfold get_grouped_opcodes. rewrite get_opcodes_identical.
  case_decide; [reflexivity|]. cbn [fix_first fix_last group_loop is_equal].
  rewrite bool_decide_eq_false_2 by lia. by rewrite andb_false_r.
Qed.

End identical_facts.

Lemma unified_diff_identical (l : list str) fromfile tofile lineterm :
  unified_diff l l fromfile tofile lineterm = [].
Proof. unfold unified_diff. by rewrite get_grouped_opcodes_identical. Qed.

(** * [split('\n')] against [splitlines()] *)

Section split_facts.

(** The text ends inside a line: it is not empty and its last
    character is not [\n]. *)
Fixpoint unterminated (s : str) : bool :=
  match s with
  | [] => false
  | c :: s' =>
      match s' with
      | [] => negb (N.eqb c LF)
      | _ => unterminated s'
      end
  end.

Lemma unterminated_snoc_LF s : unterminated (s ++ [LF]) = false.
Proof.
  induction s as [|c s IH]; [done|]. simpl.
  destruct (s ++ [LF]) eqn:E; [by destruct s|done].
Qed.

Lemma split_not_nil sep s : split sep s ≠ [].
Proof.
  destruct s as [|c s]; simpl; [done|].
  destruct (N.eqb c sep); [done|]. by destruct (split sep s).
Qed.

Lemma splitlines_not_nil c s : splitlines (c :: s) ≠ [].
Proof.
  simpl. destruct (is_linebreak c); [done|]. by destruct (splitlines s).
Qed.

Lemma is_linebreak_LF : is_linebreak LF = true.
Proof. done. Qed.

(** No line of [splitlines] holds a line boundary. *)
Lemma splitlines_no_break n : ∀ s, length s ≤ n →
  Forall (λ w, ∀ c, c ∈ w → is_linebreak c = false) (splitlines s).
Proof.
  induction n as [|n IH]; intros [|c s] Hlen; simpl in *;
    try constructor; try lia.
  destruct (is_linebreak c) eqn:Ec.
  - constructor; [by intros c' ?%elem_of_nil|].
    destruct (N.eqb c CR); [|apply IH; lia].
    destruct s as [|d s]; [constructor|].
    destruct (N.eqb d LF); apply IH; simpl in *; lia.
  - pose proof (IH s ltac:(lia)) as Hs.
    destruct (splitlines s) as [|w ws].
    + constructor; [|constructor].
      intros c' Hc'. apply list_elem_of_singleton in Hc'. by subst.
    + apply Forall_cons in Hs as [Hw Hws]. constructor; [|done].
      intros c' [->|Hc']%elem_of_cons; [done|by apply Hw].
Qed.

(** Every character but the separator is in a piece of [split]. *)
Lemma split_covers sep s c :
  c ∈ s → c ≠ sep → ∃ w, w ∈ split sep s ∧ c ∈ w.
Proof.
  induction s as [|c0 s IH]; [by intros ?%elem_of_nil|].
  intros Hin Hne. simpl. destruct (N.eqb_spec c0 sep) as [->|Hc0].
  - apply elem_of_cons in Hin as [->|Hin]; [done|].
    destruct (IH Hin Hne) as (w & Hw & Hc). exists w. split; [by right|done].
  - pose proof (split_not_nil sep s) as Hnn.
    destruct (split sep s) as [|w ws]; [done|].
    apply elem_of_cons in Hin as [->|Hin].
    + exists (c0 :: w). split; by left.
    + destruct (IH Hin Hne) as (w' & Hw' & Hc).
      apply elem_of_cons in Hw' as [->|Hw'].
      * exists (c0 :: w). split; [by left|by right].
      * exists w'. split; [by right|done].
Qed.

(** On a text whose only line boundary is [\n], [split] gives the
    lines of [splitlines], and one empty piece more unless the text
    ends inside a line. *)
Lemma split_splitlines s :
  (∀ c, c ∈ s → is_linebreak c = true → c = LF) →
  split LF s
  = splitlines s ++ (if unterminated s then [] else [[]]).
Proof.
  induction s as [|c s IH]; intros Hs; [done|].
  assert (∀ c', c' ∈ s → is_linebreak c' = true → c' = LF) as Hs'.
  { intros c' Hc'. apply Hs. by right. }
  specialize (IH Hs'). cbn [split splitlines].
  destruct (is_linebreak c) eqn:Ec.
  - rewrite (Hs c ltac:(by left) Ec). simpl (N.eqb LF LF).
    simpl (N.eqb LF CR). cbn iota. rewrite IH. simpl.
    by destruct s.
  - assert (N.eqb c LF = false) as Ec'.
    { apply N.eqb_neq. intros ->. by rewrite is_linebreak_LF in Ec. }
    rewrite Ec'. destruct s as [|c' s]; [by simpl; rewrite Ec'|].
    pose proof (splitlines_not_nil c' s) as Hnn.
    rewrite IH. destruct (splitlines (c' :: s)) as [|w ws]; [done|].
    simpl. by destruct s.
Qed.

Lemma split_ne_splitlines s :
  split LF (s ++ [LF]) ≠ splitlines (s ++ [LF]).
Proof.
  intros Heq.
  assert (∀ c, c ∈ s ++ [LF] → is_linebreak c = true → c = LF) as Honly.
  { intros c Hc Hb. destruct (decide (c = LF)) as [|Hne]; [done|].
    destruct (split_covers LF _ c Hc Hne) as (w & Hw & Hcw).
    rewrite Heq in Hw.
    pose proof (splitlines_no_break _ (s ++ [LF]) (Nat.le_refl _)) as Hnb.
    rewrite Forall_forall in Hnb. rewrite (Hnb w Hw c Hcw) in Hb. done. }
  rewrite (split_splitlines _ Honly), unterminated_snoc_LF in Heq.
  apply (f_equal length) in Heq. rewrite length_app in Heq. simpl in Heq.
  lia.
Qed.

End split_facts.

(** * Facts about the orchestrator *)

(** ** Kinds of events *)

Definition is_connect_failure (ev : event) : bool :=
  match ev with
  | Ext (ConnectHandler _ _ _ _) (Raise _) => true
  | _ => false
  end.

Definition is_connected (ev : event) : bool :=
  match ev with
  | Ext (ConnectHandler _ _ _ _) (Ok _) => true
  | _ => false
  end.

(** The run touches the backup file: it opens it or writes to it. *)
Definition is_backup_file (ev : event) : bool :=
  match ev with
  | Ext (OpenW _) _ | Ext (FileWrite _ _) _ => true
  | _ => false
  end.

Definition is_backup_failure (ev : event) : bool :=
  match ev with
  | Ext (OpenW _) (Raise _) | Ext (FileWrite _ _) (Raise _) => true
  | _ => false
  end.

Definition is_backup_written (ev : event) : bool :=
  match ev with
  | Ext (FileWrite _ _) (Ok _) => true
  | _ => false
  end.

(** The current configuration came back from the device. *)
Definition is_fetched (ev : event) : bool :=
  match ev with
  | Ext (SendCommand _) (Ok _) => true
  | _ => false
  end.

(** [send_config_set] is called, or the command set goes to the device. *)
Definition is_push (ev : event) : bool :=
  match ev with
  | Call F_send_config_set | Ext (SendConfigSet _) _ => true
  | _ => false
  end.

Definition is_pushed (ev : event) : bool :=
  match ev with
  | Ext (SendConfigSet _) (Ok _) => true
  | _ => false
  end.

Definition is_render (ev : event) : bool :=
  match ev with
  | Call F_render_config | Ext (TemplateRender _) _ => true
  | _ => false
  end.

Definition is_compare (ev : event) : bool :=
  match ev with
  | Compare _ _ _ => true
  | _ => false
  end.

Definition is_close (ev : event) : bool :=
  match ev with
  | Call F_close => true
  | _ => false
  end.

Definition is_disconnect (ev : event) : bool :=
  match ev with
  | Ext Disconnect _ => true
  | _ => false
  end.

Definition is_backup_call (ev : event) : bool :=
  match ev with
  | Call F_backup_config => true
  | _ => false
  end.

(** No [P] event comes before the first [Q] event. *)
Fixpoint precedes (Q P : event → bool) (tr : list event) : bool :=
  match tr with
  | [] => true
  | ev :: tr' =>
      if P ev then false else if Q ev then true else precedes Q P tr'
  end.

Fixpoint count_events (P : event → bool) (tr : list event) : nat :=
  match tr with
  | [] => 0
  | ev :: tr' => (if P ev then 1 else 0) + count_events P tr'
  end.

(** The record has the four fields [NetworkDevice] is built from. *)
Definition has_keys (device_info : gmap str str) : Prop :=
  is_Some (device_info !! lit "hostname")
  ∧ is_Some (device_info !! lit "username")
  ∧ is_Some (device_info !! lit "password")
  ∧ is_Some (device_info !! lit "device_type").

(** The line [configure_device] logs when it catches an error. *)
Definition failure_log (host : str) (e : exn) : event :=
  Log ERROR (lit "Failed to configure " ++ host ++ lit ". Error: "
             ++ exn_str e).

Section orchestrator_facts.

Lemma for_each_log (l : list str) s :
  for_each l logger_info s
  = (mkState (trace s ++ (Log INFO <$> l)) (connection s), Ok ()).
Proof.
  revert s. induction l as [|x l IH]; intros [tr c]; simpl.
  - by rewrite app_nil_r.
  - unfold Tool.bind, logger_info. unfold emit at 1. simpl.
    fold (logger_info). rewrite IH. simpl. by rewrite <- app_assoc.
Qed.

Lemma count_events_app P tr1 tr2 :
  count_events P (tr1 ++ tr2) = count_events P tr1 + count_events P tr2.
Proof. induction tr1 as [|ev tr1 IH]; simpl; [done|]. rewrite IH. lia. Qed.

Lemma count_events_logs P lv (l : list str) :
  (∀ msg, P (Log lv msg) = false) → count_events P (Log lv <$> l) = 0.
Proof. intros HP. induction l as [|x l IH]; simpl; [done|]. by rewrite HP. Qed.

Lemma precedes_spec Q P tr :
  precedes Q P tr = true →
  ∀ pre ev post, tr = pre ++ ev :: post → P ev = true →
    ∃ ev', ev' ∈ pre ∧ Q ev' = true.
Proof.
  induction tr as [|e0 tr IH]; intros Hp pre ev post Heq HP.
  { by destruct pre. }
  simpl in Hp. destruct pre as [|e1 pre]; simpl in Heq;
    injection Heq as Hhd Htl; subst e0.
  - by rewrite HP in Hp.
  - destruct (P e1); [done|]. destruct (Q e1) eqn:HQ.
    + exists e1. split; [by left|done].
    + destruct (IH Hp pre ev post Htl HP) as (ev' & Hin & Hq).
      exists ev'. split; [by right|done].
Qed.

End orchestrator_facts.

(** Runs [configure_device] along every path: the lookups of the four
    keys, then every answer of the world outside. *)
Ltac run_paths env template device_info :=
  unfold run_task, configure_device, getitem, try_finally, try_except,
    configure_body, connect, backup_config, render_config, get_config,
    send_command, send_config_set, close, try_except, logger_info,
    logger_error, extern, emit, get_connection, set_connection, raise,
    Tool.bind, Tool.ret;
  cbn [trace connection hostname username password device_type negb];
  repeat match goal with
    | |- context [device_info !! ?k] =>
        destruct (device_info !! k) as [?v|] eqn:?Hkey;
        cbn [trace connection hostname username password device_type negb]
    | |- context [env ?tr ?c] =>
        destruct (env tr c) as [?x|?e] eqn:?E;
        cbn [trace connection negb]
    | |- context [template ?d] =>
        destruct (template d) as [?x|?e] eqn:?E;
        cbn [trace connection negb]
    | |- context [match unified_diff ?a ?b ?f ?t ?l with _ => _ end] =>
        destruct (unified_diff a b f t l) as [|?line ?diff] eqn:?Ediff;
        cbn [trace connection negb]
    | |- context [for_each ?l ?f ?s] =>
        change (for_each l f s) with (for_each l logger_info s);
        rewrite (for_each_log l s);
        cbn [trace connection negb]
    end;
  rewrite <- ?app_assoc; cbn [app].

(** The same on a goal that speaks of one run in several places. *)
Ltac run_cases env template device_info backup_dir :=
  let out := fresh "out" in
  let Hout := fresh "Hout" in
  remember (run_task env device_info template backup_dir) as out eqn:Hout;
  revert Hout;
  run_paths env template device_info;
  intros ->; cbn [fst snd trace connection].

(** Every case of a membership in a trace written out. *)
Ltac mem_inv H :=
  repeat match type of H with
  | _ ∈ [] => by apply elem_of_nil in H
  | _ ∈ _ :: _ => apply elem_of_cons in H as [H|H]
  | _ ∈ _ ++ _ => apply elem_of_app in H as [H|H]
  | _ ∈ _ <$> _ => apply list_elem_of_fmap in H as (? & H & _)
  end.

(** ** Sample worlds, for the examples *)

(** An inventory record with the four fields. *)
Definition router1 : gmap str str :=
  {[ lit "hostname" := lit "r1"; lit "username" := lit "admin";
     lit "password" := lit "secret"; lit "device_type" := lit "ios" ]}.

(** A device that answers every command with the text [config]. *)
Definition healthy (config : str) : Env :=
  λ _ c, match c with
         | SendCommand _ => Ok config
         | _ => Ok []
         end.

(** A device that refuses the connection. *)
Definition unreachable : Env :=
  λ _ c, match c with
         | ConnectHandler _ _ _ _ => Raise (Exception (lit "timed out"))
         | _ => Ok []
         end.

(** A backup directory that cannot be written to. *)
Definition read_only_disk (config : str) : Env :=
  λ _ c, match c with
         | SendCommand _ => Ok config
         | OpenW _ => Raise (Exception (lit "Permission denied"))
         | _ => Ok []
         end.

(** A template that renders the same text for every device. *)
Definition fixed_template (text : str) : Template := λ _, Ok text.

Lemma router1_has_keys : has_keys router1.
Proof. repeat split; by eexists. Qed.

(** ** The single device *)

(** With the four fields in the record, [configure_device] returns:
    whatever goes wrong inside is caught and logged. *)
Lemma configure_device_returns env device_info template backup_dir :
  has_keys device_info →
  (run_task env device_info template backup_dir).2 = Ok ().
Proof.
  intros ([? Hh] & [? Hu] & [? Hp] & [? Ht]).
  run_cases env template device_info backup_dir; congruence.
Qed.

(** C3: when the connection cannot be opened, the run opens and writes
    no backup file, calls and sends no configuration set, renders
    nothing and compares nothing; it ends, with the failure in the log
    under the host's name. *)
Theorem connect_failure_stops env device_info template backup_dir :
  (∃ ev, ev ∈ trace (run_task env device_info template backup_dir).1
         ∧ is_connect_failure ev = true) →
  (∀ ev, ev ∈ trace (run_task env device_info template backup_dir).1 →
     is_backup_file ev = false ∧ is_push ev = false
     ∧ is_render ev = false ∧ is_compare ev = false)
  ∧ (run_task env device_info template backup_dir).2 = Ok ()
  ∧ ∃ host e, device_info !! lit "hostname" = Some host
              ∧ failure_log host e
                ∈ trace (run_task env device_info template backup_dir).1.
Proof.
  run_cases env template device_info backup_dir;
    intros (ev & Hin & Hev); try (mem_inv Hin; subst; discriminate).
  split; [|split; [done|]].
  - intros ev' Hin'. mem_inv Hin'; by subst.
  - eexists _, _. split; [done|]. unfold failure_log.
    do 4 right. by left.
Qed.

Lemma connect_failure_stops_witness :
  (∃ ev, ev ∈ trace (run_task unreachable router1
                       (fixed_template (lit "hostname r1")) (lit "bk")).1
         ∧ is_connect_failure ev = true)
  ∧ (run_task unreachable router1
       (fixed_template (lit "hostname r1")) (lit "bk")).2 = Ok ().
Proof.
  assert (∃ ev, ev ∈ trace (run_task unreachable router1
                       (fixed_template (lit "hostname r1")) (lit "bk")).1
         ∧ is_connect_failure ev = true) as Hfail.
  { exists (Ext (ConnectHandler (lit "cisco_ios") (lit "r1") (lit "admin")
                   (lit "secret"))
              (Raise (Exception (lit "timed out")))).
    split; [|reflexivity]. vm_compute. do 2 right. left. }
  split; [exact Hfail|].
  exact (proj1 (proj2 (connect_failure_stops _ _ _ _ Hfail))).
Defined.

(** ** The differ, as the orchestrator calls it *)

(** C7: applying the diff of two line sequences to the first one gives
    the second one: the insertions and deletions of the edit script
    turn [current] into [desired] exactly. *)
Theorem unified_diff_round_trip (current desired : list str) :
  apply_unified_diff
    (unified_diff current desired (lit "Current Config") (lit "New Config") [])
    current
  = Some desired.
Proof. apply patch_unified_diff. Qed.

(** C5: in every run, whatever comes before a call of
    [send_config_set], or before the command set going to the device,
    holds the call of [backup_config] and the write of the backup file:
    no state of the run has a push without the backup before it. *)
Theorem backup_before_push env device_info template backup_dir pre ev post :
  trace (run_task env device_info template backup_dir).1 = pre ++ ev :: post →
  is_push ev = true →
  Call F_backup_config ∈ pre
  ∧ ∃ ev', ev' ∈ pre ∧ is_backup_written ev' = true.
Proof.
  intros Heq Hpush. split.
  - assert (precedes is_backup_call is_push
              (trace (run_task env device_info template backup_dir).1) = true)
      as Hp by (run_cases env template device_info backup_dir; done).
    destruct (precedes_spec _ _ _ Hp _ _ _ Heq Hpush) as (ev' & Hin & Hq).
    by destruct ev' as [[]| | |].
  - assert (precedes is_backup_written is_push
              (trace (run_task env device_info template backup_dir).1) = true)
      as Hp by (run_cases env template device_info backup_dir; done).
    by apply (precedes_spec _ _ _ Hp _ _ _ Heq Hpush).
Qed.

Lemma backup_before_push_witness :
  let tr := trace (run_task (healthy (lit "old")) router1
                     (fixed_template (lit "new")) (lit "bk")).1 in
  (tr = take 23 tr ++ Call F_send_config_set :: drop 24 tr
   ∧ is_push (Call F_send_config_set) = true)
  ∧ Call F_backup_config ∈ take 23 tr.
Proof.
  intros tr.
  assert (tr = take 23 tr ++ Call F_send_config_set :: drop 24 tr) as Heq
    by (vm_compute; reflexivity).
  split; [by split|].
  exact (proj1 (backup_before_push _ _ _ _ _ _ _ Heq eq_refl)).
Defined.

(** C6: whenever [configure_device] returns, on whichever path, it has
    called [close] exactly once, and [close] has disconnected as many
    sessions as were connected: the one session, or none when the
    connection failed.  (By [configure_device_returns] it returns for
    every record with the four fields.) *)
Theorem session_released_once env device_info template backup_dir :
  (run_task env device_info template backup_dir).2 = Ok () →
  count_events is_close
    (trace (run_task env device_info template backup_dir).1) = 1
  ∧ count_events is_disconnect
      (trace (run_task env device_info template backup_dir).1)
    = count_events is_connected
        (trace (run_task env device_info template backup_dir).1)
  ∧ count_events is_connected
      (trace (run_task env device_info template backup_dir).1) ≤ 1.
Proof.
  run_cases env template device_info backup_dir; intros Hret;
    try discriminate;
    repeat (cbn [count_events is_close is_disconnect is_connected];
            rewrite ?count_events_app, ?(count_events_logs _ INFO) by done);
    repeat split; lia.
Qed.

Lemma session_released_once_witness :
  (run_task unreachable router1
     (fixed_template (lit "hostname r1")) (lit "bk")).2 = Ok ()
  ∧ count_events is_close
      (trace (run_task unreachable router1
                (fixed_template (lit "hostname r1")) (lit "bk")).1) = 1.
Proof.
  assert ((run_task unreachable router1
             (fixed_template (lit "hostname r1")) (lit "bk")).2 = Ok ())
    as Hret by reflexivity.
  split; [exact Hret|].
  exact (proj1 (session_released_once unreachable router1
                  (fixed_template (lit "hostname r1")) (lit "bk") Hret)).
Defined.

(** C1, as the code has it: a backup that cannot be opened or written
    ends the work on the device.  Nothing is rendered, compared or
    pushed; the error is logged under the host's name, the session is
    disconnected and [configure_device] returns. *)
Theorem backup_failure_aborts env device_info template backup_dir :
  (∃ ev, ev ∈ trace (run_task env device_info template backup_dir).1
         ∧ is_backup_failure ev = true) →
  (∀ ev, ev ∈ trace (run_task env device_info template backup_dir).1 →
     is_render ev = false ∧ is_compare ev = false ∧ is_push ev = false)
  ∧ (run_task env device_info template backup_dir).2 = Ok ()
  ∧ (∃ host e, device_info !! lit "hostname" = Some host
               ∧ failure_log host e
                 ∈ trace (run_task env device_info template backup_dir).1)
  ∧ count_events is_disconnect
      (trace (run_task env device_info template backup_dir).1) = 1.
Proof.
  run_cases env template device_info backup_dir;
    intros (ev & Hin & Hev); try (mem_inv Hin; subst; discriminate).
  - split; [|split; [done|split; [|done]]].
    + intros ev' Hin'. mem_inv Hin'; by subst.
    + eexists _, _. split; [done|]. unfold failure_log.
      do 10 right. by left.
  - split; [|split; [done|split; [|done]]].
    + intros ev' Hin'. mem_inv Hin'; by subst.
    + eexists _, _. split; [done|]. unfold failure_log.
      do 9 right. by left.
Qed.

Lemma backup_failure_aborts_witness :
  (∃ ev, ev ∈ trace (run_task (read_only_disk (lit "old")) router1
                       (fixed_template (lit "new")) (lit "bk")).1
         ∧ is_backup_failure ev = true)
  ∧ count_events is_disconnect
      (trace (run_task (read_only_disk (lit "old")) router1
                (fixed_template (lit "new")) (lit "bk")).1) = 1.
Proof.
  assert (∃ ev, ev ∈ trace (run_task (read_only_disk (lit "old")) router1
                       (fixed_template (lit "new")) (lit "bk")).1
         ∧ is_backup_failure ev = true) as Hfail.
  { exists (Ext (OpenW (lit "bk/r1_backup.cfg"))
              (Raise (Exception (lit "Permission denied")))).
    split; [|reflexivity]. vm_compute. do 8 right. left. }
  split; [exact Hfail|].
  exact (proj2 (proj2 (proj2 (backup_failure_aborts _ _ _ _ Hfail)))).
Defined.

(** C1, as the claim has it, fails: on a device that connects and
    gives its configuration, with a backup directory that cannot be
    written, the run neither renders nor compares nor pushes. *)
Lemma backup_failure_continues_counterexample :
  let tr := trace (run_task (read_only_disk (lit "old")) router1
                     (fixed_template (lit "new")) (lit "bk")).1 in
  existsb is_connected tr = true ∧ existsb is_fetched tr = true
  ∧ existsb is_backup_failure tr = true
  ∧ existsb is_render tr = false ∧ existsb is_compare tr = false
  ∧ existsb is_push tr = false.
Proof. vm_compute. done. Qed.

(** C8: two identical line sequences have the empty diff; and when the
    orchestrator compares identical lines, the diff it gets is empty and
    the run neither calls [send_config_set] nor sends a command set. *)
Theorem identical_lines_no_change (l : list str) env device_info template
    backup_dir :
  unified_diff l l (lit "Current Config") (lit "New Config") [] = []
  ∧ ∀ diff,
      Compare l l diff
      ∈ trace (run_task env device_info template backup_dir).1 →
      diff = []
      ∧ ∀ ev, ev ∈ trace (run_task env device_info template backup_dir).1 →
              is_push ev = false.
Proof.
  split; [apply unified_diff_identical|].
  run_cases env template device_info backup_dir; intros d Hin;
    mem_inv Hin; try discriminate.
  - injection Hin as Ha Hb Hd. split; [done|].
    intros ev' Hin'. mem_inv Hin'; by subst.
  - injection Hin as Ha Hb Hd. rewrite <- Ha, <- Hb in *.
    by rewrite unified_diff_identical in *.
  - injection Hin as Ha Hb Hd. rewrite <- Ha, <- Hb in *.
    by rewrite unified_diff_identical in *.
Qed.

Lemma identical_lines_no_change_witness :
  Compare [lit "hostname r1"] [lit "hostname r1"] []
  ∈ trace (run_task (healthy (lit "hostname r1")) router1
             (fixed_template (lit "hostname r1")) (lit "bk")).1
  ∧ ∀ ev, ev ∈ trace (run_task (healthy (lit "hostname r1")) router1
                        (fixed_template (lit "hostname r1")) (lit "bk")).1 →
          is_push ev = false.
Proof.
  assert (Compare [lit "hostname r1"] [lit "hostname r1"] []
          ∈ trace (run_task (healthy (lit "hostname r1")) router1
                     (fixed_template (lit "hostname r1")) (lit "bk")).1)
    as Hin by (vm_compute; do 16 right; left).
  split; [exact Hin|].
  exact (proj2 (proj2 (identical_lines_no_change [lit "hostname r1"]
                         _ _ _ _) [] Hin)).
Defined.

(** C10: the rendered text is cut with [split('\n')], the fetched text
    with [splitlines()].  For a text that ends with a line feed the two
    disagree: when the orchestrator compares the lines of such a text,
    fetched, with the lines of the same text, rendered, the diff is not
    empty and the rendered lines are pushed to the device. *)
Theorem trailing_newline_pushes (s : str) env device_info template
    backup_dir diff :
  Compare (splitlines (s ++ [LF])) (split LF (s ++ [LF])) diff
  ∈ trace (run_task env device_info template backup_dir).1 →
  split LF (s ++ [LF]) ≠ splitlines (s ++ [LF])
  ∧ diff ≠ []
  ∧ ∃ answer, Ext (SendConfigSet (split LF (s ++ [LF]))) answer
              ∈ trace (run_task env device_info template backup_dir).1.
Proof.
  intros Hin. split; [apply split_ne_splitlines|]. revert Hin.
  run_cases env template device_info backup_dir; intros Hin;
    mem_inv Hin; try discriminate.
  - injection Hin as Ha Hb Hd. rewrite <- Ha, <- Hb in *.
    apply unified_diff_nil_inv in Ediff.
    by destruct (split_ne_splitlines s).
  - injection Hin as Ha Hb Hd. rewrite <- Hb, Hd. split; [done|].
    eexists. do 18 right. apply elem_of_app. right. right. by left.
  - injection Hin as Ha Hb Hd. rewrite <- Hb, Hd. split; [done|].
    eexists. do 18 right. apply elem_of_app. right. right. by left.
Qed.

Lemma trailing_newline_pushes_witness :
  Compare (splitlines (lit "hostname r1" ++ [LF]))
    (split LF (lit "hostname r1" ++ [LF]))
    [lit "--- Current Config"; lit "+++ New Config"; lit "@@ -1 +1,2 @@";
     lit " hostname r1"; lit "+"]
  ∈ trace (run_task (healthy (lit "hostname r1" ++ [LF])) router1
             (fixed_template (lit "hostname r1" ++ [LF])) (lit "bk")).1
  ∧ ∃ answer,
      Ext (SendConfigSet (split LF (lit "hostname r1" ++ [LF]))) answer
      ∈ trace (run_task (healthy (lit "hostname r1" ++ [LF])) router1
                 (fixed_template (lit "hostname r1" ++ [LF])) (lit "bk")).1.
Proof.
  assert (Compare (splitlines (lit "hostname r1" ++ [LF]))
            (split LF (lit "hostname r1" ++ [LF]))
            [lit "--- Current Config"; lit "+++ New Config";
             lit "@@ -1 +1,2 @@"; lit " hostname r1"; lit "+"]
          ∈ trace (run_task (healthy (lit "hostname r1" ++ [LF])) router1
                     (fixed_template (lit "hostname r1" ++ [LF]))
                     (lit "bk")).1)
    as Hin by (vm_compute; do 16 right; left).
  split; [exact Hin|].
  exact (proj2 (proj2 (trailing_newline_pushes (lit "hostname r1")
                         _ _ _ _ _ Hin))).
Defined.

(** ** The fleet *)

(** The outcome of one device and the report of a fleet, in the words
    of the specification: a device is [Applied] when its command set
    was accepted, [NoChangeNeeded] when the comparison found nothing,
    [Failed] with the reason when a step failed; the report counts the
    first two and lists the failed hosts with their reasons. *)
Inductive Outcome :=
  | Applied
  | NoChangeNeeded
  | Failed (reason : str).

#[export] Instance Outcome_eq_dec : EqDecision Outcome.
Proof. solve_decision. Defined.

Record FleetReport := mkReport {
  applied : nat;
  noChange : nat;
  failed : list (str * str)
}.

(** The outcome a trace stands for: its first step that decides. *)
Fixpoint outcome_from (tr : list event) : Outcome :=
  match tr with
  | [] => Failed []
  | ev :: tr' =>
      match ev with
      | Ext _ (Raise e) => Failed (exn_str e)
      | Ext (SendConfigSet _) (Ok _) => Applied
      | Compare _ _ [] => NoChangeNeeded
      | _ => outcome_from tr'
      end
  end.

Definition fleet_report (devices : list (gmap str str))
    (states : list state) : FleetReport :=
  let outcomes := (λ st, outcome_from (trace st)) <$> states in
  {| applied := length (filter (λ o, o = Applied) outcomes);
     noChange := length (filter (λ o, o = NoChangeNeeded) outcomes);
     failed :=
       omap (λ p, match p.2 with
                  | Failed reason =>
                      Some (default [] (p.1 !! lit "hostname"), reason)
                  | _ => None
                  end)
            (zip devices outcomes) |}.

(** A record without its host name. *)
Definition no_hostname : gmap str str := delete (lit "hostname") router1.

Lemma outcome_from_logs lv (l : list str) tr :
  outcome_from ((Log lv <$> l) ++ tr) = outcome_from tr.
Proof. induction l as [|x l IH]; simpl; done. Qed.

Lemma collect_results_ok futures completed :
  Forall (λ f : state * result (), f.2 = Ok ()) futures →
  collect_results futures completed = Ok ().
Proof.
  intros Hall. induction completed as [|i completed IH]; simpl; [done|].
  destruct (futures !! i) as [[st r]|] eqn:Hi; [|done].
  rewrite Forall_forall in Hall.
  specialize (Hall (st, r) ltac:(by eapply list_elem_of_lookup_2)).
  simpl in Hall. by subst r.
Qed.

(** With the four fields in every record and a positive pool size,
    [configure_devices_parallel] returns, with one state per device. *)
Lemma configure_devices_parallel_returns envs completed devices template
    backup_dir max_workers :
  max_workers ≠ 0 → Forall has_keys devices →
  (configure_devices_parallel envs completed devices template backup_dir
     max_workers).2 = Ok ()
  ∧ ∀ i device_info, devices !! i = Some device_info →
      (configure_devices_parallel envs completed devices template backup_dir
         max_workers).1 !! i
      = Some (run_task (envs i) device_info template backup_dir).1.
Proof.
  intros Hmw Hkeys. unfold configure_devices_parallel.
  rewrite decide_False by done. simpl. split.
  - apply collect_results_ok. apply Forall_forall. intros f Hf.
    apply list_elem_of_lookup in Hf as [i Hi].
    apply list_lookup_imap_Some in Hi as (device_info & Hd & ->).
    apply configure_device_returns.
    rewrite Forall_forall in Hkeys. apply Hkeys.
    by eapply list_elem_of_lookup_2.
  - intros i device_info Hd.
    by rewrite list_lookup_fmap, list_lookup_imap, Hd.
Qed.

(** What a failed device leaves in its log: its host name and the
    reason. *)
Lemma failed_device_logged env device_info template backup_dir reason :
  has_keys device_info →
  outcome_from (trace (run_task env device_info template backup_dir).1)
  = Failed reason →
  ∃ host e, device_info !! lit "hostname" = Some host
            ∧ reason = exn_str e
            ∧ failure_log host e
              ∈ trace (run_task env device_info template backup_dir).1.
Proof.
  intros ([? Hh] & [? Hu] & [? Hp] & [? Ht]).
  run_cases env template device_info backup_dir; try congruence;
    simplify_eq;
    repeat (cbn [outcome_from]; rewrite ?outcome_from_logs);
    intros Hout; try discriminate; injection Hout as <-;
    eexists _, _; (split; [done|]); (split; [done|]);
    unfold failure_log;
    repeat first [left | right | (apply elem_of_app; right)].
Qed.

(** C2, as the code has it: the coordinator returns nothing but [None],
    for every fleet whose records have the four fields; the outcomes
    are only in the logs, where every failed device has its line with
    host name and reason. *)
Theorem fleet_outcomes_only_logged envs completed devices template
    backup_dir max_workers :
  max_workers ≠ 0 → Forall has_keys devices →
  (configure_devices_parallel envs completed devices template backup_dir
     max_workers).2 = Ok ()
  ∧ ∀ i device_info st reason,
      devices !! i = Some device_info →
      (configure_devices_parallel envs completed devices template backup_dir
         max_workers).1 !! i = Some st →
      outcome_from (trace st) = Failed reason →
      ∃ host e, device_info !! lit "hostname" = Some host
                ∧ reason = exn_str e ∧ failure_log host e ∈ trace st.
Proof.
  intros Hmw Hkeys.
  destruct (configure_devices_parallel_returns envs completed devices
              template backup_dir max_workers Hmw Hkeys) as [Hret Hstates].
  split; [done|]. intros i device_info st reason Hd Hst Hout.
  rewrite (Hstates _ _ Hd) in Hst. injection Hst as <-.
  apply failed_device_logged; [|done].
  rewrite Forall_forall in Hkeys. apply Hkeys.
  by eapply list_elem_of_lookup_2.
Qed.

Lemma fleet_outcomes_only_logged_witness :
  (5 ≠ 0 ∧ Forall has_keys [router1])
  ∧ (configure_devices_parallel (λ _, unreachable) [0] [router1]
       (fixed_template (lit "hostname r1")) (lit "bk") 5).2 = Ok ().
Proof.
  assert (Forall has_keys [router1]) as Hkeys.
  { apply Forall_singleton, router1_has_keys. }
  split; [by split|].
  exact (proj1 (fleet_outcomes_only_logged (λ _, unreachable) [0] [router1]
                  (fixed_template (lit "hostname r1")) (lit "bk") 5
                  ltac:(done) Hkeys)).
Defined.

(** C2, as the claim has it, fails: what the coordinator returns cannot
    hold the report.  A fleet of one device without drift and the empty
    fleet return the same value, and their reports differ. *)
Lemma fleet_report_counterexample :
  ¬ ∃ decode : () → FleetReport,
      ∀ envs completed devices template backup_dir max_workers v,
        (configure_devices_parallel envs completed devices template
           backup_dir max_workers).2 = Ok v →
        decode v
        = fleet_report devices
            (configure_devices_parallel envs completed devices template
               backup_dir max_workers).1.
Proof.
  intros [decode Hdecode].
  pose proof (Hdecode (λ _, healthy (lit "hostname r1")) [0] [router1]
                (fixed_template (lit "hostname r1")) (lit "bk") 5 ()
                ltac:(by vm_compute)) as H1.
  pose proof (Hdecode (λ _, healthy (lit "hostname r1")) [] []
                (fixed_template (lit "hostname r1")) (lit "bk") 5 ()
                ltac:(by vm_compute)) as H0.
  rewrite H1 in H0. vm_compute in H0. discriminate.
Qed.

(** C4, where the code misses it: the four lookups in the record come
    before the [try] of [configure_device].  A record without
    ["hostname"] raises [KeyError] out of [configure_device], and
    [future.result()] raises it again in the coordinator, here after
    the well-formed device of the same fleet has completed. *)
Theorem missing_key_escapes envs template backup_dir :
  (run_task (envs 0) no_hostname template backup_dir).2
  = Raise (KeyError (lit "hostname"))
  ∧ (configure_devices_parallel envs [1; 0] [no_hostname; router1] template
       backup_dir 5).2
    = Raise (KeyError (lit "hostname")).
Proof.
  assert (∀ env, (run_task env no_hostname template backup_dir).2
                 = Raise (KeyError (lit "hostname"))) as Hbad.
  { intros env. unfold run_task, configure_device, getitem.
    replace (no_hostname !! lit "hostname") with (@None str)
      by (by vm_compute).
    done. }
  split; [apply Hbad|].
  unfold configure_devices_parallel. simpl.
  pose proof (configure_device_returns (envs 1) router1 template backup_dir
                router1_has_keys) as Hgood.
  destruct (run_task (envs 1) router1 template backup_dir) as [st1 r1].
  simpl in Hgood. subst r1.
  specialize (Hbad (envs 0)).
  destruct (run_task (envs 0) no_hostname template backup_dir) as [st0 r0].
  simpl in Hbad. by subst r0.
Qed.


(** * Beyond the ten claims: the rest of the program

    What follows covers the code the claims leave aside: the methods of
    [NetworkDevice] on their own, what [configure_device] lets escape,
    what it logs, sends and writes and in which order, the errors of
    the coordinator, and [main] with the three functions it calls
    first. *)

(** ** Further definitions *)

(** [sep.join(lines)]. *)
Fixpoint join (sep : str) (ls : list str) : str :=
  match ls with
  | [] => []
  | l :: ls' =>
      match ls' with
      | [] => l
      | _ => l ++ sep ++ join sep ls'
      end
  end.

(** [s.startswith(p)]. *)
Fixpoint starts_with (p s : str) : bool :=
  match p, s with
  | [], _ => true
  | c :: p', d :: s' => N.eqb c d && starts_with p' s'
  | _ :: _, [] => false
  end.

(** The only line boundary of the text is [\n]. *)
Definition only_LF (s : str) : Prop :=
  ∀ c, c ∈ s → is_linebreak c = true → c = LF.

(** The first character of a line is one of the four marks of a unified
    diff: space, plus, minus, at. *)
Definition marked (l : str) : Prop :=
  ∃ c rest, l = c :: rest ∧ c ∈ [32; 43; 45; 64]%N.

(** A line of the diff that stands for a line of the inputs: kept (in
    both), dropped (in [a]) or added (in [b]). *)
Definition line_of_inputs (a b : list str) (l : str) : Prop :=
  (∃ x, l = lit " " ++ x ∧ x ∈ a ∧ x ∈ b)
  ∨ (∃ x, l = lit "-" ++ x ∧ x ∈ a)
  ∨ (∃ x, l = lit "+" ++ x ∧ x ∈ b).

(** The fields [configure_device] reads from the record, in the order
    it reads them, and the first of them the record lacks. *)
Definition four_keys : list str :=
  [lit "hostname"; lit "username"; lit "password"; lit "device_type"].

Definition first_missing (device_info : gmap str str) : option str :=
  List.find (λ k, bool_decide (device_info !! k = None)) four_keys.

(** An outside call raised. *)
Definition is_failure (ev : event) : bool :=
  match ev with
  | Ext _ (Raise _) => true
  | _ => false
  end.

(** What the handler and [close] leave in the trace: log lines, the
    call of [close] and the disconnect. *)
Definition is_cleanup (ev : event) : bool :=
  match ev with
  | Log _ _ | Call F_close | Ext Disconnect (Ok _) => true
  | _ => false
  end.

(** After the first failure of an outside call only cleanup follows. *)
Fixpoint quiet_after_failure (tr : list event) : bool :=
  match tr with
  | [] => true
  | ev :: tr' =>
      if is_failure ev then forallb is_cleanup tr'
      else quiet_after_failure tr'
  end.

(** The line [connect] logs before it raises the error again. *)
Definition connect_failure_log (host : str) (e : exn) : event :=
  Log ERROR (lit "Failed to connect to " ++ host ++ lit ". Error: "
             ++ exn_str e).

(** The three lines that close the work on a device, by the words they
    begin with. *)
Definition is_applied_line (ev : event) : bool :=
  match ev with
  | Log INFO msg => starts_with (lit "Configuration of ") msg
  | _ => false
  end.

Definition is_unchanged_line (ev : event) : bool :=
  match ev with
  | Log INFO msg => starts_with (lit "No configuration changes needed for ") msg
  | _ => false
  end.

Definition is_failed_line (ev : event) : bool :=
  match ev with
  | Log ERROR msg => starts_with (lit "Failed to configure ") msg
  | _ => false
  end.

(** The comparison found nothing. *)
Definition is_no_change (ev : event) : bool :=
  match ev with
  | Compare _ _ [] => true
  | _ => false
  end.

(** The lines that report a step that went well, by the words they
    begin with. *)
Definition is_connected_line (ev : event) : bool :=
  match ev with
  | Log INFO msg => starts_with (lit "Connected to ") msg
  | _ => false
  end.

Definition is_backup_line (ev : event) : bool :=
  match ev with
  | Log INFO msg => starts_with (lit "Backup of ") msg
  | _ => false
  end.

Definition is_closed_line (ev : event) : bool :=
  match ev with
  | Log INFO msg => starts_with (lit "Closed connection to ") msg
  | _ => false
  end.

(** The connection was asked for, whatever the answer. *)
Definition is_connect_attempt (ev : event) : bool :=
  is_connected ev || is_connect_failure ev.

(** The kind of an outside call. *)
Inductive step :=
  | SConnect | SFetch | SOpen | SWrite | SRender | SPush | SDisconnect.

Definition step_of (c : extcall) : step :=
  match c with
  | ConnectHandler _ _ _ _ => SConnect
  | SendCommand _ => SFetch
  | SendConfigSet _ => SPush
  | Disconnect => SDisconnect
  | OpenW _ => SOpen
  | FileWrite _ _ => SWrite
  | TemplateRender _ => SRender
  end.

(** The outside calls of a trace, in their order. *)
Fixpoint steps (tr : list event) : list step :=
  match tr with
  | [] => []
  | Ext c _ :: tr' => step_of c :: steps tr'
  | _ :: tr' => steps tr'
  end.

(** The outside calls of a run that goes through to the push. *)
Definition full_run : list step :=
  [SConnect; SFetch; SOpen; SWrite; SRender; SFetch; SPush].

(** The error of the guard in [send_command] and [send_config_set]. *)
Definition not_connected : exn :=
  Exception (lit "Not connected to the device").

(** ** The entry point: [load_devices], [load_template],
       [discover_devices] and [main]

    [main] and the three functions it calls first reach the outside
    through libraries only: [ipaddress] and scapy for the discovery,
    [open], [yaml.safe_load] and [jinja2.Template] for the two files.
    The answers of the libraries are given by a record of functions;
    what the program does with them is its own.  The inventory is
    taken as the annotation of [load_devices] has it, a list of
    records. *)

Module Main.

(** The arguments as [parse_args] returns them: the two required
    paths, [backup_dir] (["./backups"] unless given) and [discover]
    ([None] unless given). *)
Record Namespace := mkArgs {
  devices : str;
  template : str;
  backup_dir : str;
  discover : option str
}.

(** The libraries.  [ip_network network] stands for
    [str(ipaddress.ip_network(network))], [srp pdst] for the [psrc] of
    every answer to the ARP request for [pdst], in their order;
    [open_read] for opening a file for reading, [safe_load] and
    [Template_new] for [yaml.safe_load] and [jinja2.Template] on its
    text; [repr_list] for the text an f-string makes of a list. *)
Record Libs := mkLibs {
  ip_network : str → result str;
  srp : str → result (list str);
  open_read : str → result str;
  safe_load : str → result (list (gmap str str));
  Template_new : str → result Template;
  repr_list : list str → str
}.

Inductive libcall :=
  | IpNetwork (network : str)
  | Srp (pdst : str)
  | Open (filename : str)
  | SafeLoad (filename : str)
  | TemplateNew (filename : str)
  | Close (filename : str).

(** What [main] leaves behind: its library calls, with the error of
    those that fail, its log lines, and the states the device tasks
    end in once the pool has run. *)
Inductive main_event :=
  | Lib (c : libcall) (failed : option exn)
  | MLog (lv : level) (msg : str)
  | Fleet (states : list state).

(** A program of [main]: what it leaves behind and how it ends. *)
Definition W (A : Type) : Type := list main_event * result A.

Definition wret {A} (x : A) : W A := ([], Ok x).

Definition wbind {A B} (m : W A) (k : A → W B) : W B :=
  match m with
  | (l, Ok x) => let '(l', r) := k x in (l ++ l', r)
  | (l, Raise e) => (l, Raise e)
  end.

(** One library call. *)
Definition lib {A} (c : libcall) (answer : result A) : W A :=
  match answer with
  | Ok x => ([Lib c None], Ok x)
  | Raise e => ([Lib c (Some e)], Raise e)
  end.

(** [with open(filename, 'r') as file: body file]: the file is closed
    however the body ends. *)
Definition with_open {A} (w : Libs) (filename : str) (body : str → W A)
    : W A :=
  wbind (lib (Open filename) (open_read w filename))
    (λ text, let '(l, r) := body text in (l ++ [Lib (Close filename) None], r)).

Definition load_devices (w : Libs) (filename : str)
    : W (list (gmap str str)) :=
  with_open w filename (λ text, lib (SafeLoad filename) (safe_load w text)).

Definition load_template (w : Libs) (filename : str) : W Template :=
  with_open w filename
    (λ text, lib (TemplateNew filename) (Template_new w text)).

Definition discover_devices (w : Libs) (network : str) : W (list str) :=
  wbind (lib (IpNetwork network) (ip_network w network))
    (λ pdst, lib (Srp pdst) (srp w pdst)).

(** [main], from the parsed arguments on.  [if args.discover:] holds
    for a string that is not empty; the pool has its default size.
    [envs] and [completed] are those of [configure_devices_parallel]. *)
Definition main (w : Libs) (envs : nat → Env) (completed : list nat)
    (args : Namespace) : W unit :=
  wbind
    (match discover args with
     | Some (c :: network) =>
         wbind (discover_devices w (c :: network))
           (λ discovered_devices,
             ([MLog INFO (lit "Discovered devices: "
                          ++ repr_list w discovered_devices)], Ok ()))
     | _ => wret ()
     end)
    (λ _,
      wbind (load_devices w (devices args))
        (λ devs,
          wbind (load_template w (template args))
            (λ tmpl,
              let '(states, r) :=
                configure_devices_parallel envs completed devs tmpl
                  (backup_dir args) 5 in
              ([Fleet states], r)))).

End Main.

(** The pool has run. *)
Definition is_fleet (ev : Main.main_event) : bool :=
  match ev with
  | Main.Fleet _ => true
  | _ => false
  end.

(** What the discovery leaves behind: its two library calls and its
    log line. *)
Definition is_discovery (ev : Main.main_event) : bool :=
  match ev with
  | Main.Lib (Main.IpNetwork _) _ | Main.Lib (Main.Srp _) _ => true
  | Main.MLog _ msg => starts_with (lit "Discovered devices: ") msg
  | _ => false
  end.

(** The arguments without [--discover]. *)
Definition without_discover (args : Main.Namespace) : Main.Namespace :=
  Main.mkArgs (Main.devices args) (Main.template args)
    (Main.backup_dir args) None.

(** ** Further sample worlds *)

(** A run that finds a change and pushes it. *)
Definition changed_run : state * result unit :=
  run_task (healthy (lit "old")) router1 (fixed_template (lit "new"))
    (lit "bk").

(** A run on a device that refuses the connection. *)
Definition refused_run : state * result unit :=
  run_task unreachable router1 (fixed_template (lit "new")) (lit "bk").

(** The device of the inventory record [router1]. *)
Definition r1 : NetworkDevice :=
  mkDevice (lit "r1") (lit "admin") (lit "secret") (lit "ios").

(** Libraries that find the two files and nothing on the network. *)
Definition plain_libs : Main.Libs :=
  Main.mkLibs (λ network, Ok network) (λ _, Ok [])
    (λ _, Ok []) (λ _, Ok [router1])
    (λ _, Ok (fixed_template (lit "new"))) (λ _, lit "[]").

(** The same with an inventory file that does not exist. *)
Definition no_inventory : Main.Libs :=
  Main.mkLibs (λ network, Ok network) (λ _, Ok [])
    (λ _, Raise (Exception (lit "No such file or directory")))
    (λ _, Ok [router1])
    (λ _, Ok (fixed_template (lit "new"))) (λ _, lit "[]").

Definition sample_args : Main.Namespace :=
  Main.mkArgs (lit "devices.yaml") (lit "template.j2") (lit "./backups")
    (Some (lit "192.168.1.0/24")).

(** Decides every [starts_with] of the goal whose literal part is long
    enough. *)
Ltac eval_starts_with :=
  repeat match goal with
  | |- context [starts_with ?p ?s] =>
      let b := eval vm_compute in (starts_with p s) in
      lazymatch b with
      | true => change (starts_with p s) with true
      | false => change (starts_with p s) with false
      end
  end.

(** No line of a diff begins like a line of the program. *)
Ltac marked_not_line :=
  induction 1 as [|w l (c & rest & -> & Hc) _ IH]; [done|];
  cbn [fmap list_fmap count_events]; rewrite IH;
  repeat (apply elem_of_cons in Hc as [->|Hc]; [done|]);
  by apply elem_of_nil in Hc.

(** Every answer of the libraries of [main], one after the other. *)
Ltac main_paths w :=
  unfold Main.main, Main.load_devices, Main.load_template,
    Main.discover_devices, Main.with_open, Main.wbind, Main.wret, Main.lib;
  repeat match goal with
  | |- context [match ?f w ?x with _ => _ end] =>
      destruct (f w x) as [?v|?e'] eqn:?E; cbn [fst snd app]
  | |- context [configure_devices_parallel ?a ?b ?c ?d ?f ?g] =>
      destruct (configure_devices_parallel a b c d f g) as [?st ?r] eqn:?E;
      cbn [fst snd app]
  end.

(** ** [split] and [join], [split] and [splitlines] *)

Lemma join_split s : join [LF] (split LF s) = s.
Proof.
  induction s as [|c s IH]; [done|]. cbn [split].
  pose proof (split_not_nil LF s) as Hnn.
  destruct (N.eqb_spec c LF) as [->|Hc].
  - destruct (split LF s) as [|w ws]; [done|].
    cbn [join]. cbn [join] in IH. by rewrite IH.
  - destruct (split LF s) as [|w ws]; [done|].
    cbn [join] in *. destruct ws; simpl in *; by rewrite IH.
Qed.

Lemma split_no_sep sep s : Forall (λ w, sep ∉ w) (split sep s).
Proof.
  induction s as [|c s IH]; simpl.
  - constructor; [by intros ?%elem_of_nil|constructor].
  - destruct (N.eqb_spec c sep) as [->|Hc].
    + constructor; [by intros ?%elem_of_nil|done].
    + destruct (split sep s) as [|w ws].
      * constructor; [|constructor].
        intros ?%list_elem_of_singleton. congruence.
      * apply Forall_cons in IH as [Hw Hws]. constructor; [|done].
        intros [?|?]%elem_of_cons; [congruence|done].
Qed.

Lemma split_line_app (w : str) rest :
  LF ∉ w → split LF (w ++ LF :: rest) = w :: split LF rest.
Proof.
  induction w as [|c w IH]; intros Hw; [done|]. simpl.
  destruct (N.eqb_spec c LF) as [->|Hc]; [by destruct Hw; left|].
  rewrite IH; [done|]. intros ?. apply Hw. by right.
Qed.

Lemma split_line (w : str) : LF ∉ w → split LF w = [w].
Proof.
  induction w as [|c w IH]; intros Hw; [done|]. simpl.
  destruct (N.eqb_spec c LF) as [->|Hc]; [by destruct Hw; left|].
  rewrite IH; [done|]. intros ?. apply Hw. by right.
Qed.

Lemma split_join (ls : list str) :
  ls ≠ [] → Forall (λ w, LF ∉ w) ls → split LF (join [LF] ls) = ls.
Proof.
  induction ls as [|w ls IH]; [done|]. intros _ Hall.
  apply Forall_cons in Hall as [Hw Hls].
  destruct ls as [|w' ls]; [by apply split_line|].
  change (join [LF] (w :: w' :: ls)) with (w ++ LF :: join [LF] (w' :: ls)).
  rewrite split_line_app by done. by rewrite IH.
Qed.

Lemma split_eq_splitlines_iff s :
  split LF s = splitlines s ↔ unterminated s = true ∧ only_LF s.
Proof.
  split.
  - intros Heq.
    assert (only_LF s) as Honly.
    { intros c Hc Hb. destruct (decide (c = LF)) as [|Hne]; [done|].
      destruct (split_covers LF _ c Hc Hne) as (w & Hw & Hcw).
      rewrite Heq in Hw.
      pose proof (splitlines_no_break _ s (Nat.le_refl _)) as Hnb.
      rewrite Forall_forall in Hnb. rewrite (Hnb w Hw c Hcw) in Hb. done. }
    split; [|done].
    rewrite (split_splitlines _ Honly) in Heq.
    destruct (unterminated s); [done|].
    apply (f_equal length) in Heq. rewrite length_app in Heq. simpl in Heq.
    lia.
  - intros [Hu Honly]. rewrite (split_splitlines _ Honly), Hu.
    by rewrite app_nil_r.
Qed.

(** ** The lines of the diff *)

Section diff_lines.
Context (a b : list str).

Lemma opcode_lines_marked c : Forall marked (opcode_lines a b c).
Proof.
  destruct c as [[[[t i1] i2] j1] j2]. unfold opcode_lines.
  assert (∀ (m : N) (ls : list str), m ∈ [32; 43; 45; 64]%N →
            Forall marked ((λ line, m :: line) <$> ls)) as Hm.
  { intros m ls Hin. apply Forall_fmap, Forall_forall. intros l _.
    by exists m, l. }
  destruct t; rewrite ?Forall_app; repeat split;
    try apply Forall_nil_2;
    first [ apply (Hm 32%N) | apply (Hm 45%N) | apply (Hm 43%N) ];
    set_solver.
Qed.

Lemma hunk_lines_marked lineterm g :
  Forall marked (hunk_lines a b lineterm g).
Proof.
  unfold hunk_lines. constructor.
  - eexists 64%N, _. split; [reflexivity|set_solver].
  - apply Forall_bind, Forall_forall. intros c _. apply opcode_lines_marked.
Qed.

Lemma unified_diff_marked fromfile tofile lineterm :
  Forall marked (unified_diff a b fromfile tofile lineterm).
Proof.
  unfold unified_diff. destruct (get_grouped_opcodes a b 3) as [|g gs] eqn:E;
    [constructor|].
  constructor; [eexists 45%N, _; split; [reflexivity|set_solver]|].
  constructor; [eexists 43%N, _; split; [reflexivity|set_solver]|].
  apply Forall_bind, Forall_forall. intros c _. apply hunk_lines_marked.
Qed.

Lemma elem_of_slice {X} (l : list X) lo hi x : x ∈ slice l lo hi → x ∈ l.
Proof.
  unfold slice. intros Hin. apply subseteq_take in Hin.
  apply subseteq_drop in Hin. done.
Qed.

Lemma ops_ok_each ops : ∀ i j i' j',
  ops_ok a b i j ops i' j' → Forall (op_ok a b) ops.
Proof.
  induction ops as [|c ops IH]; intros i j i' j'; simpl; [constructor|].
  intros (_ & _ & Hc & Hr). constructor; [done|]. by eapply IH.
Qed.

Lemma groups_ok_each groups : ∀ i j,
  groups_ok a b i j groups → Forall (Forall (op_ok a b)) groups.
Proof.
  induction groups as [|g groups IH]; intros i j; simpl; [constructor|].
  intros (gi & gj & gi' & gj' & _ & _ & Hg & Hr).
  constructor; [by eapply ops_ok_each|by eapply IH].
Qed.

Lemma opcode_lines_of_inputs c :
  op_ok a b c → Forall (line_of_inputs a b) (opcode_lines a b c).
Proof.
  destruct c as [[[[t i1] i2] j1] j2]. unfold opcode_lines.
  intros (Hi & Hj & Hla & Hlb & Ht).
  assert (Forall (line_of_inputs a b)
            ((λ line, lit "-" ++ line) <$> slice a i1 i2)) as Hdel.
  { apply Forall_fmap, Forall_forall. intros x Hx. right. left.
    exists x. split; [done|]. by eapply elem_of_slice. }
  assert (Forall (line_of_inputs a b)
            ((λ line, lit "+" ++ line) <$> slice b j1 j2)) as Hins.
  { apply Forall_fmap, Forall_forall. intros x Hx. right. right.
    exists x. split; [done|]. by eapply elem_of_slice. }
  destruct t; rewrite ?Forall_app; try (split; [done || constructor|]);
    try done; try constructor.
  destruct Ht as [Hlen Hm]. apply matches_slice in Hm.
  replace (i1 + (i2 - i1)) with i2 in Hm by lia.
  replace (j1 + (i2 - i1)) with j2 in Hm by lia.
  apply Forall_fmap, Forall_forall. intros x Hx. left. exists x.
  split; [done|]. split; [by eapply elem_of_slice|].
  rewrite Hm in Hx. by eapply elem_of_slice.
Qed.

End diff_lines.

Lemma marked_not_applied (l : list str) :
  Forall marked l → count_events is_applied_line (Log INFO <$> l) = 0.
Proof. marked_not_line. Qed.

Lemma marked_not_unchanged (l : list str) :
  Forall marked l → count_events is_unchanged_line (Log INFO <$> l) = 0.
Proof. marked_not_line. Qed.

Lemma marked_not_connected (l : list str) :
  Forall marked l → count_events is_connected_line (Log INFO <$> l) = 0.
Proof. marked_not_line. Qed.

Lemma marked_not_backup (l : list str) :
  Forall marked l → count_events is_backup_line (Log INFO <$> l) = 0.
Proof. marked_not_line. Qed.

Lemma marked_not_closed (l : list str) :
  Forall marked l → count_events is_closed_line (Log INFO <$> l) = 0.
Proof. marked_not_line. Qed.

(** ** Traces *)

Lemma quiet_after_failure_logs lv (l : list str) tr :
  quiet_after_failure ((Log lv <$> l) ++ tr) = quiet_after_failure tr.
Proof. induction l as [|x l IH]; simpl; done. Qed.

Lemma quiet_after_failure_spec tr :
  quiet_after_failure tr = true →
  ∀ pre ev post, tr = pre ++ ev :: post → is_failure ev = true →
    Forall (λ ev', is_failure ev' = false) pre
    ∧ Forall (λ ev', is_cleanup ev' = true) post.
Proof.
  induction tr as [|e0 tr IH]; intros Hq pre ev post Heq Hf.
  { by destruct pre. }
  simpl in Hq. destruct pre as [|e1 pre]; simpl in Heq;
    injection Heq as Hhd Htl; subst e0.
  - rewrite Hf in Hq. split; [constructor|].
    apply Forall_forall. intros ev' Hin.
    rewrite forallb_forall in Hq. apply Hq.
    subst tr. by apply list_elem_of_In.
  - destruct (is_failure e1) eqn:He1.
    + rewrite forallb_forall in Hq.
      assert (is_cleanup ev = true) as Hc.
      { apply Hq. subst tr. apply in_or_app. right. by left. }
      destruct ev as [| [] [] | |]; simpl in *; congruence.
    + destruct (IH Hq pre ev post Htl Hf) as [Hpre Hpost].
      split; [by constructor|done].
Qed.

Lemma steps_app tr1 tr2 : steps (tr1 ++ tr2) = steps tr1 ++ steps tr2.
Proof.
  induction tr1 as [|[] tr1 IH]; simpl; [done..| |done|done].
  by rewrite IH.
Qed.

Lemma steps_logs lv (l : list str) : steps (Log lv <$> l) = [].
Proof. induction l as [|x l IH]; simpl; done. Qed.

(** ** What leaves [configure_device] *)

Lemma run_task_raise_inv env device_info template backup_dir e :
  (run_task env device_info template backup_dir).2 = Raise e →
  ∃ k, first_missing device_info = Some k ∧ e = KeyError k
       ∧ (run_task env device_info template backup_dir).1
         = mkState [Call F_configure_device] false.
Proof.
  unfold first_missing, four_keys. cbn [List.find].
  run_cases env template device_info backup_dir;
    repeat case_bool_decide; try congruence; cbn [List.find];
    first [ discriminate | by intros [= <-]; eexists ].
Qed.

Lemma run_task_first_missing env device_info template backup_dir k :
  first_missing device_info = Some k →
  (run_task env device_info template backup_dir).2 = Raise (KeyError k).
Proof.
  unfold first_missing, four_keys. cbn [List.find].
  run_cases env template device_info backup_dir;
    repeat case_bool_decide; try congruence; cbn [List.find];
    first [ discriminate | by intros [= <-] ].
Qed.

Lemma has_keys_first_missing device_info :
  has_keys device_info ↔ first_missing device_info = None.
Proof.
  unfold has_keys, first_missing, four_keys. cbn [List.find].
  split.
  - intros ([? Hh] & [? Hu] & [? Hp] & [? Ht]).
    repeat case_bool_decide; congruence.
  - repeat case_bool_decide; try discriminate. intros _.
    repeat split; by apply not_eq_None_Some.
Qed.

(** X1: the only error that leaves [configure_device] is the [KeyError]
    of the first of the four fields the record lacks, in the order
    hostname, username, password, device_type; and then nothing was
    done for the device: no connection was asked for and no line was
    logged. *)
Theorem only_first_missing_key_escapes env device_info template backup_dir e :
  ((run_task env device_info template backup_dir).2 = Raise e
   ↔ ∃ k, first_missing device_info = Some k ∧ e = KeyError k)
  ∧ ((run_task env device_info template backup_dir).2 = Raise e →
     (run_task env device_info template backup_dir).1
     = mkState [Call F_configure_device] false).
Proof.
  split; [split|].
  - intros (k & Hk & He & _)%run_task_raise_inv. by exists k.
  - intros (k & Hk & ->). by apply run_task_first_missing.
  - by intros (k & _ & _ & Hst)%run_task_raise_inv.
Qed.

(** ** What [configure_device] compares, sends and writes *)

(** X2: once the run has compared the two line sequences, the diff is
    not empty exactly when they differ, and the run calls
    [send_config_set] exactly when they differ; it then sends the
    second sequence, as it is. *)
Theorem pushes_iff_lines_differ env device_info template backup_dir a b d :
  Compare a b d ∈ trace (run_task env device_info template backup_dir).1 →
  (d ≠ [] ↔ a ≠ b)
  ∧ ((∃ ev, ev ∈ trace (run_task env device_info template backup_dir).1
            ∧ is_push ev = true) ↔ a ≠ b)
  ∧ (a ≠ b →
     ∃ answer, Ext (SendConfigSet b) answer
               ∈ trace (run_task env device_info template backup_dir).1).
Proof.
  run_cases env template device_info backup_dir; intros Hin;
    mem_inv Hin; try discriminate; injection Hin as -> -> ->.
  - apply unified_diff_nil_inv in Ediff as Heq.
    split; [by split|]. split; [|done].
    split; [|done]. intros (ev & Hev & Hp). mem_inv Hev; by subst.
  - assert (splitlines x4 ≠ split LF x3) as Hne.
    { intros Heq. rewrite Heq, unified_diff_identical in Ediff. done. }
    split; [by split|]. split.
    + split; [done|]. intros _. exists (Call F_send_config_set).
      split; [|done]. do 18 right. apply elem_of_app. right. by left.
    + intros _. eexists. do 18 right. apply elem_of_app. right. right.
      by left.
  - assert (splitlines x4 ≠ split LF x3) as Hne.
    { intros Heq. rewrite Heq, unified_diff_identical in Ediff. done. }
    split; [by split|]. split.
    + split; [done|]. intros _. exists (Call F_send_config_set).
      split; [|done]. do 18 right. apply elem_of_app. right. by left.
    + intros _. eexists. do 18 right. apply elem_of_app. right. right.
      by left.
Qed.

Lemma pushes_iff_lines_differ_witness :
  Compare [lit "old"] [lit "new"]
    [lit "--- Current Config"; lit "+++ New Config"; lit "@@ -1 +1 @@";
     lit "-old"; lit "+new"]
  ∈ trace changed_run.1
  ∧ ([lit "old"] ≠ [lit "new"] →
     ∃ answer, Ext (SendConfigSet [lit "new"]) answer ∈ trace changed_run.1).
Proof.
  assert (Compare [lit "old"] [lit "new"]
            [lit "--- Current Config"; lit "+++ New Config";
             lit "@@ -1 +1 @@"; lit "-old"; lit "+new"]
          ∈ trace changed_run.1) as Hin
    by (vm_compute; do 16 right; left).
  split; [exact Hin|].
  exact (proj2 (proj2 (pushes_iff_lines_differ _ _ _ _ _ _ _ Hin))).
Defined.

(** X3: when the device reports the very text the template renders,
    the run leaves the device alone exactly when that text ends inside
    a line and has no line boundary but [\n]: only then do
    [split('\n')] and [splitlines()] give the same lines. *)
Theorem same_text_left_alone_iff (s : str) env device_info template
    backup_dir d :
  (split LF s = splitlines s ↔ unterminated s = true ∧ only_LF s)
  ∧ (Compare (splitlines s) (split LF s) d
     ∈ trace (run_task env device_info template backup_dir).1 →
     ((∀ ev, ev ∈ trace (run_task env device_info template backup_dir).1 →
             is_push ev = false)
      ↔ unterminated s = true ∧ only_LF s)).
Proof.
  split; [apply split_eq_splitlines_iff|].
  rewrite <- split_eq_splitlines_iff.
  run_cases env template device_info backup_dir; intros Hin;
    mem_inv Hin; try discriminate; injection Hin as Ha Hb Hd;
    rewrite <- Ha, <- Hb in Ediff.
  - apply unified_diff_nil_inv in Ediff. split; [done|].
    intros _ ev Hev. mem_inv Hev; by subst.
  - split.
    + intros Hno. specialize (Hno (Call F_send_config_set)).
      discriminate Hno. do 18 right. apply elem_of_app. right. by left.
    + intros Heq. by rewrite Heq, unified_diff_identical in Ediff.
  - split.
    + intros Hno. specialize (Hno (Call F_send_config_set)).
      discriminate Hno. do 18 right. apply elem_of_app. right. by left.
    + intros Heq. by rewrite Heq, unified_diff_identical in Ediff.
Qed.

(** X4: whatever goes to the device with [send_config_set] is the
    whole rendered text, cut at every [\n]: the template rendered the
    record into a text, the command set is [split] of it, joining the
    commands with [\n] gives the text again, and the set is never
    empty. *)
Theorem pushed_config_is_rendered env device_info template backup_dir cfg
    answer :
  Ext (SendConfigSet cfg) answer
  ∈ trace (run_task env device_info template backup_dir).1 →
  ∃ text, template device_info = Ok text
          ∧ Ext (TemplateRender device_info) (Ok text)
            ∈ trace (run_task env device_info template backup_dir).1
          ∧ cfg = split LF text ∧ join [LF] cfg = text ∧ cfg ≠ [].
Proof.
  run_cases env template device_info backup_dir; intros Hin;
    mem_inv Hin; try discriminate; injection Hin as -> ->;
    (eexists; split; [done|]; split; [do 12 right; by left|]);
    (split; [done|]; split; [apply join_split|apply split_not_nil]).
Qed.

Lemma pushed_config_is_rendered_witness :
  Ext (SendConfigSet [lit "new"]) (Ok []) ∈ trace changed_run.1
  ∧ ∃ text, fixed_template (lit "new") router1 = Ok text
            ∧ Ext (TemplateRender router1) (Ok text) ∈ trace changed_run.1
            ∧ [lit "new"] = split LF text ∧ join [LF] [lit "new"] = text
            ∧ [lit "new"] ≠ [].
Proof.
  assert (Ext (SendConfigSet [lit "new"]) (Ok []) ∈ trace changed_run.1)
    as Hin by (vm_compute; do 24 right; left).
  split; [exact Hin|].
  exact (pushed_config_is_rendered _ _ _ _ _ _ Hin).
Defined.

(** X5: [split('\n')] and ['\n'.join] undo each other: joining the
    pieces of a text gives the text, the pieces are never none and hold
    no [\n]; and lines without [\n], at least one, are the pieces of
    their join. *)
Theorem split_join_inverse :
  (∀ s, join [LF] (split LF s) = s
        ∧ split LF s ≠ [] ∧ Forall (λ w, LF ∉ w) (split LF s))
  ∧ (∀ ls, ls ≠ [] → Forall (λ w, LF ∉ w) ls →
           split LF (join [LF] ls) = ls).
Proof.
  split.
  - intros s. split; [apply join_split|].
    split; [apply split_not_nil|apply split_no_sep].
  - apply split_join.
Qed.

(** X6: the backup file, when it is written, is
    [backup_dir/hostname_backup.cfg] and holds what the device answered
    to the first [show running-config] of the run: the answer, the
    opening of the file and the write follow each other, nothing was
    fetched or written before, and the file is not touched again. *)
Theorem backup_holds_fetched_config env device_info template backup_dir
    filename data answer :
  Ext (FileWrite filename data) answer
  ∈ trace (run_task env device_info template backup_dir).1 →
  ∃ host pre opened post,
    device_info !! lit "hostname" = Some host
    ∧ filename = backup_dir ++ lit "/" ++ host ++ lit "_backup.cfg"
    ∧ trace (run_task env device_info template backup_dir).1
      = pre ++ Ext (SendCommand (lit "show running-config")) (Ok data)
            :: Ext (OpenW filename) (Ok opened)
            :: Ext (FileWrite filename data) answer :: post
    ∧ (∀ ev, ev ∈ pre → is_fetched ev = false ∧ is_backup_file ev = false)
    ∧ (∀ ev, ev ∈ post → is_backup_file ev = false).
Proof.
  run_cases env template device_info backup_dir; intros Hin;
    mem_inv Hin; try discriminate; injection Hin as -> -> ->;
    (eexists _, [_; _; _; _; _; _; _], _, _);
    (split; [done|]; split; [done|]; split; [reflexivity|]);
    (split; intros ev Hev; mem_inv Hev; by subst).
Qed.

Lemma backup_holds_fetched_config_witness :
  Ext (FileWrite (lit "bk/r1_backup.cfg") (lit "old")) (Ok [])
  ∈ trace changed_run.1
  ∧ ∃ host pre opened post,
      router1 !! lit "hostname" = Some host
      ∧ lit "bk/r1_backup.cfg"
        = lit "bk" ++ lit "/" ++ host ++ lit "_backup.cfg"
      ∧ trace changed_run.1
        = pre ++ Ext (SendCommand (lit "show running-config"))
                   (Ok (lit "old"))
              :: Ext (OpenW (lit "bk/r1_backup.cfg")) (Ok opened)
              :: Ext (FileWrite (lit "bk/r1_backup.cfg") (lit "old")) (Ok [])
              :: post
      ∧ (∀ ev, ev ∈ pre → is_fetched ev = false ∧ is_backup_file ev = false)
      ∧ (∀ ev, ev ∈ post → is_backup_file ev = false).
Proof.
  assert (Ext (FileWrite (lit "bk/r1_backup.cfg") (lit "old")) (Ok [])
          ∈ trace changed_run.1) as Hin
    by (vm_compute; do 9 right; left).
  split; [exact Hin|].
  exact (backup_holds_fetched_config _ _ _ _ _ _ _ Hin).
Defined.

(** X7: the comparison does not use the text that went to the backup:
    the run asks the device a second time.  What is compared is
    [splitlines] of the second answer with [split] of the rendered
    text, by [unified_diff] under the two file names; before it lie
    one earlier fetch and the write of the backup, after it no
    fetch. *)
Theorem comparison_reads_device_again env device_info template backup_dir
    a b d :
  Compare a b d ∈ trace (run_task env device_info template backup_dir).1 →
  ∃ pre post current text,
    trace (run_task env device_info template backup_dir).1
    = pre ++ Ext (SendCommand (lit "show running-config")) (Ok current)
          :: Compare a b d :: post
    ∧ a = splitlines current
    ∧ template device_info = Ok text ∧ b = split LF text
    ∧ d = unified_diff a b (lit "Current Config") (lit "New Config") []
    ∧ count_events is_fetched pre = 1
    ∧ count_events is_backup_written pre = 1
    ∧ count_events is_fetched post = 0.
Proof.
  run_cases env template device_info backup_dir; intros Hin;
    mem_inv Hin; try discriminate; injection Hin as -> -> ->;
    (eexists [_; _; _; _; _; _; _; _; _; _; _; _; _; _; _], _, _, _);
    (split; [reflexivity|]);
    (split; [done|]; split; [done|]; split; [done|]; split; [done|]);
    (split; [done|]; split; [done|]);
    repeat (cbn [count_events is_fetched];
            rewrite ?count_events_app, ?(count_events_logs _ INFO) by done);
    done.
Qed.

Lemma comparison_reads_device_again_witness :
  Compare [lit "old"] [lit "new"]
    [lit "--- Current Config"; lit "+++ New Config"; lit "@@ -1 +1 @@";
     lit "-old"; lit "+new"]
  ∈ trace changed_run.1
  ∧ ∃ pre post current text,
      trace changed_run.1
      = pre ++ Ext (SendCommand (lit "show running-config")) (Ok current)
            :: Compare [lit "old"] [lit "new"]
                 [lit "--- Current Config"; lit "+++ New Config";
                  lit "@@ -1 +1 @@"; lit "-old"; lit "+new"]
            :: post
      ∧ [lit "old"] = splitlines current
      ∧ fixed_template (lit "new") router1 = Ok text
      ∧ [lit "new"] = split LF text
      ∧ [lit "--- Current Config"; lit "+++ New Config"; lit "@@ -1 +1 @@";
         lit "-old"; lit "+new"]
        = unified_diff [lit "old"] [lit "new"] (lit "Current Config")
            (lit "New Config") []
      ∧ count_events is_fetched pre = 1
      ∧ count_events is_backup_written pre = 1
      ∧ count_events is_fetched post = 0.
Proof.
  assert (Compare [lit "old"] [lit "new"]
            [lit "--- Current Config"; lit "+++ New Config";
             lit "@@ -1 +1 @@"; lit "-old"; lit "+new"]
          ∈ trace changed_run.1) as Hin
    by (vm_compute; do 16 right; left).
  split; [exact Hin|].
  exact (comparison_reads_device_again _ _ _ _ _ _ _ Hin).
Defined.

(** X8: the connection is asked for once in a run, with the fields of
    the record: the host name as address, the user name, the password,
    and the device type with [cisco_] put before it. *)
Theorem connect_uses_record_fields env device_info template backup_dir
    device_type ip user pw answer :
  Ext (ConnectHandler device_type ip user pw) answer
  ∈ trace (run_task env device_info template backup_dir).1 →
  (∃ t, device_info !! lit "device_type" = Some t
        ∧ device_type = lit "cisco_" ++ t)
  ∧ device_info !! lit "hostname" = Some ip
  ∧ device_info !! lit "username" = Some user
  ∧ device_info !! lit "password" = Some pw
  ∧ count_events is_connect_attempt
      (trace (run_task env device_info template backup_dir).1) = 1.
Proof.
  unfold is_connect_attempt.
  run_cases env template device_info backup_dir; intros Hin;
    mem_inv Hin; try discriminate; injection Hin as -> -> -> -> ->;
    (split; [by eexists|]); do 3 (split; [done|]);
    repeat (cbn [count_events is_connected is_connect_failure orb];
            rewrite ?count_events_app, ?(count_events_logs _ INFO) by done);
    done.
Qed.

Lemma connect_uses_record_fields_witness :
  Ext (ConnectHandler (lit "cisco_ios") (lit "r1") (lit "admin")
         (lit "secret")) (Ok [])
  ∈ trace changed_run.1
  ∧ router1 !! lit "hostname" = Some (lit "r1").
Proof.
  assert (Ext (ConnectHandler (lit "cisco_ios") (lit "r1") (lit "admin")
                 (lit "secret")) (Ok [])
          ∈ trace changed_run.1) as Hin
    by (vm_compute; do 2 right; left).
  split; [exact Hin|].
  exact (proj1 (proj2 (connect_uses_record_fields _ _ _ _ _ _ _ _ _ Hin))).
Defined.

(** ** The order of the steps and what follows a failure *)

(** X9: the outside calls of a run that returns come in one order:
    connect, fetch, open the backup, write it, render, fetch, push.  A
    run makes the first of them alone (the connection failed), or two
    to seven of them and then the disconnect. *)
Theorem steps_in_fixed_order env device_info template backup_dir :
  (run_task env device_info template backup_dir).2 = Ok () →
  steps (trace (run_task env device_info template backup_dir).1) = [SConnect]
  ∨ ∃ n, 2 ≤ n ≤ 7
         ∧ steps (trace (run_task env device_info template backup_dir).1)
           = take n full_run ++ [SDisconnect].
Proof.
  run_cases env template device_info backup_dir; intros Hret;
    try discriminate;
    repeat (cbn [steps step_of]; rewrite ?steps_app, ?steps_logs);
    first [ by left
          | right;
            first [ exists 2; split; [lia|reflexivity]
                  | exists 3; split; [lia|reflexivity]
                  | exists 4; split; [lia|reflexivity]
                  | exists 5; split; [lia|reflexivity]
                  | exists 6; split; [lia|reflexivity]
                  | exists 7; split; [lia|reflexivity] ] ].
Qed.

Lemma steps_in_fixed_order_witness :
  changed_run.2 = Ok ()
  ∧ (steps (trace changed_run.1) = [SConnect]
     ∨ ∃ n, 2 ≤ n ≤ 7
            ∧ steps (trace changed_run.1) = take n full_run ++ [SDisconnect]).
Proof.
  assert (changed_run.2 = Ok ()) as Hret by (vm_compute; reflexivity).
  split; [exact Hret|].
  exact (steps_in_fixed_order _ _ _ _ Hret).
Defined.

(** X10: the first outside call that fails is the last step of the
    work on the device, whichever step it is: no outside call failed
    before it, after it come only log lines, the call of [close] and
    the disconnect, and [configure_device] returns. *)
Theorem first_failure_ends_run env device_info template backup_dir pre c e
    post :
  trace (run_task env device_info template backup_dir).1
  = pre ++ Ext c (Raise e) :: post →
  (∀ ev, ev ∈ pre → is_failure ev = false)
  ∧ (∀ ev, ev ∈ post → is_cleanup ev = true)
  ∧ (run_task env device_info template backup_dir).2 = Ok ().
Proof.
  intros Heq.
  assert (quiet_after_failure
            (trace (run_task env device_info template backup_dir).1) = true)
    as Hq.
  { run_cases env template device_info backup_dir;
      repeat (cbn [quiet_after_failure is_failure];
              rewrite ?quiet_after_failure_logs); done. }
  destruct (quiet_after_failure_spec _ Hq _ _ _ Heq eq_refl) as [Hpre Hpost].
  rewrite Forall_forall in Hpre. rewrite Forall_forall in Hpost.
  split; [done|]. split; [done|].
  revert Heq. clear.
  run_cases env template device_info backup_dir; intros Heq; try done;
    by destruct pre as [|? [|? ?]].
Qed.

Lemma first_failure_ends_run_witness :
  trace refused_run.1
  = take 2 (trace refused_run.1)
    ++ Ext (ConnectHandler (lit "cisco_ios") (lit "r1") (lit "admin")
              (lit "secret")) (Raise (Exception (lit "timed out")))
    :: drop 3 (trace refused_run.1)
  ∧ (∀ ev, ev ∈ drop 3 (trace refused_run.1) → is_cleanup ev = true).
Proof.
  assert (trace refused_run.1
          = take 2 (trace refused_run.1)
            ++ Ext (ConnectHandler (lit "cisco_ios") (lit "r1") (lit "admin")
                      (lit "secret")) (Raise (Exception (lit "timed out")))
            :: drop 3 (trace refused_run.1)) as Heq
    by (vm_compute; reflexivity).
  split; [exact Heq|].
  exact (proj1 (proj2 (first_failure_ends_run _ _ _ _ _ _ _ _ Heq))).
Defined.

(** ** What [configure_device] logs *)

(** X11: the error lines of a run are those of its failed outside
    calls.  Every line logged as an error is the line of [connect] or
    the line of [configure_device] for an outside call that raised,
    under the host name of the record and with the text of that error;
    and every outside call that raised has its line of
    [configure_device]. *)
Theorem error_lines_are_outside_errors env device_info template backup_dir :
  (∀ msg, Log ERROR msg
          ∈ trace (run_task env device_info template backup_dir).1 →
     ∃ host c e,
       device_info !! lit "hostname" = Some host
       ∧ Ext c (Raise e)
         ∈ trace (run_task env device_info template backup_dir).1
       ∧ (Log ERROR msg = connect_failure_log host e
          ∨ Log ERROR msg = failure_log host e))
  ∧ (∀ c e, Ext c (Raise e)
            ∈ trace (run_task env device_info template backup_dir).1 →
       ∃ host, device_info !! lit "hostname" = Some host
               ∧ failure_log host e
                 ∈ trace (run_task env device_info template backup_dir).1).
Proof.
  unfold connect_failure_log, failure_log.
  run_cases env template device_info backup_dir;
    (split;
     [ intros msg Hin; mem_inv Hin; try discriminate;
       injection Hin as ->; eexists _, _, _; (split; [done|]);
       (split; [|by (left + right)]);
       repeat first [ by left | right | (apply elem_of_app; right) ]
     | intros c e' Hin; mem_inv Hin; try discriminate;
       injection Hin as -> ->; eexists; (split; [done|]);
       repeat first [ by left | right | (apply elem_of_app; right) ] ]).
Qed.

(** X12: a run that returns logs one closing line: the line of success
    exactly when the device accepted the command set, the line of no
    change exactly when the comparison was empty, the line of failure
    exactly when an outside call raised; and no second one. *)
Theorem one_verdict_line env device_info template backup_dir :
  (run_task env device_info template backup_dir).2 = Ok () →
  let tr := trace (run_task env device_info template backup_dir).1 in
  count_events is_applied_line tr = count_events is_pushed tr
  ∧ count_events is_unchanged_line tr = count_events is_no_change tr
  ∧ count_events is_failed_line tr = count_events is_failure tr
  ∧ count_events is_applied_line tr + count_events is_unchanged_line tr
    + count_events is_failed_line tr = 1.
Proof.
  run_cases env template device_info backup_dir; intros Hret;
    try discriminate;
    try match goal with
        | H : unified_diff ?a ?b ?f ?t ?l = _ :: _ |- _ =>
            pose proof (unified_diff_marked a b f t l) as Hm;
            rewrite H in Hm
        end;
    repeat (cbn [count_events is_applied_line is_unchanged_line
                 is_failed_line is_pushed is_no_change is_failure];
            rewrite ?count_events_app, ?(count_events_logs _ INFO) by done;
            rewrite ?marked_not_applied, ?marked_not_unchanged by done);
    eval_starts_with; cbv zeta; repeat split; lia.
Qed.

Lemma one_verdict_line_witness :
  changed_run.2 = Ok ()
  ∧ count_events is_applied_line (trace changed_run.1)
    = count_events is_pushed (trace changed_run.1).
Proof.
  assert (changed_run.2 = Ok ()) as Hret by (vm_compute; reflexivity).
  split; [exact Hret|].
  exact (proj1 (one_verdict_line _ _ _ _ Hret)).
Defined.

(** X13: nothing goes to the device unannounced.  Right before the
    call of [send_config_set] the log holds the heading with the host
    name and then the diff of the comparison, every line of it in its
    order, beginning with the two file lines; and the run pushes no
    second time. *)
Theorem diff_logged_before_push env device_info template backup_dir cfg
    answer :
  Ext (SendConfigSet cfg) answer
  ∈ trace (run_task env device_info template backup_dir).1 →
  ∃ host pre a d post,
    device_info !! lit "hostname" = Some host
    ∧ trace (run_task env device_info template backup_dir).1
      = pre ++ Compare a cfg d
            :: Log INFO (lit "Configuration changes for " ++ host ++ lit ":")
            :: (Log INFO <$> d)
            ++ Call F_send_config_set
            :: Ext (SendConfigSet cfg) answer :: post
    ∧ d = unified_diff a cfg (lit "Current Config") (lit "New Config") []
    ∧ (∃ hunks, d = lit "--- Current Config" :: lit "+++ New Config"
                    :: hunks)
    ∧ (∀ ev, ev ∈ pre → is_push ev = false)
    ∧ (∀ ev, ev ∈ post → is_push ev = false).
Proof.
  run_cases env template device_info backup_dir; intros Hin;
    mem_inv Hin; try discriminate; injection Hin as -> ->;
    (eexists _, [_; _; _; _; _; _; _; _; _; _; _; _; _; _; _; _], _, _, _);
    (split; [done|]; split; [reflexivity|]; split; [done|]);
    (split;
     [ revert Ediff; unfold unified_diff;
       destruct (get_grouped_opcodes _ _ 3); [done|];
       intros [= <- <-]; by eexists
     | split; intros ev Hev; mem_inv Hev; by subst ]).
Qed.

Lemma diff_logged_before_push_witness :
  Ext (SendConfigSet [lit "new"]) (Ok []) ∈ trace changed_run.1
  ∧ ∃ host pre a d post,
      router1 !! lit "hostname" = Some host
      ∧ trace changed_run.1
        = pre ++ Compare a [lit "new"] d
              :: Log INFO (lit "Configuration changes for " ++ host ++ lit ":")
              :: (Log INFO <$> d)
              ++ Call F_send_config_set
              :: Ext (SendConfigSet [lit "new"]) (Ok []) :: post
      ∧ d = unified_diff a [lit "new"] (lit "Current Config")
              (lit "New Config") []
      ∧ (∃ hunks, d = lit "--- Current Config" :: lit "+++ New Config"
                      :: hunks)
      ∧ (∀ ev, ev ∈ pre → is_push ev = false)
      ∧ (∀ ev, ev ∈ post → is_push ev = false).
Proof.
  assert (Ext (SendConfigSet [lit "new"]) (Ok []) ∈ trace changed_run.1)
    as Hin by (vm_compute; do 24 right; left).
  split; [exact Hin|].
  exact (diff_logged_before_push _ _ _ _ _ _ Hin).
Defined.

(** X21: the lines that report progress are true to what happened:
    a run logs "Connected to" as often as the connection was opened,
    "Backup of" as often as the backup file was written and "Closed
    connection to" as often as it disconnected, whatever the texts of
    the device and the template are. *)
Theorem progress_lines_match_events env device_info template backup_dir :
  let tr := trace (run_task env device_info template backup_dir).1 in
  count_events is_connected_line tr = count_events is_connected tr
  ∧ count_events is_backup_line tr = count_events is_backup_written tr
  ∧ count_events is_closed_line tr = count_events is_disconnect tr.
Proof.
  run_cases env template device_info backup_dir;
    try match goal with
        | H : unified_diff ?a ?b ?f ?t ?l = _ :: _ |- _ =>
            pose proof (unified_diff_marked a b f t l) as Hm;
            rewrite H in Hm
        end;
    repeat (cbn [count_events is_connected_line is_backup_line
                 is_closed_line is_connected is_backup_written
                 is_disconnect];
            rewrite ?count_events_app, ?(count_events_logs _ INFO) by done;
            rewrite ?marked_not_connected, ?marked_not_backup,
              ?marked_not_closed by done);
    eval_starts_with; cbv zeta; repeat split; lia.
Qed.

(** X14: the diff shows lines of the two inputs only.  Apart from the
    two file lines and the [@@] lines, every line of it is a line of
    both inputs after a space, a line of the current configuration
    after a minus, or a line of the new configuration after a plus. *)
Theorem diff_lines_come_from_inputs (a b : list str) :
  Forall (λ l, l = lit "--- Current Config" ∨ l = lit "+++ New Config"
               ∨ starts_with (lit "@@ -") l = true
               ∨ line_of_inputs a b l)
    (unified_diff a b (lit "Current Config") (lit "New Config") []).
Proof.
  unfold unified_diff.
  pose proof (groups_ok_each a b _ _ _ (get_grouped_opcodes_ok a b 3)) as Hok.
  destruct (get_grouped_opcodes a b 3) as [|g gs]; [constructor|].
  constructor; [by left|]. constructor; [by right; left|].
  apply Forall_bind. eapply Forall_impl; [exact Hok|].
  intros g' Hg'. unfold hunk_lines. constructor; [by right; right; left|].
  apply Forall_bind. eapply Forall_impl; [exact Hg'|].
  intros c Hc. eapply Forall_impl; [by apply opcode_lines_of_inputs|].
  intros l Hl. by do 3 right.
Qed.

(** ** The methods of [NetworkDevice] on their own *)

(** X15: [close] disconnects and leaves the attribute [connection] as
    it was.  On a connected device it returns, a second [close]
    disconnects a second time, and a command sent after [close] is not
    refused by the guard: it goes to the closed session, whose answer
    is the result. *)
Theorem close_does_not_clear_connection env self s :
  connection s = true →
  connection (close self s).1 = true
  ∧ (close self s).2 = Ok ()
  ∧ count_events is_disconnect (trace ((close self;; close self)%prog s).1)
    = count_events is_disconnect (trace s) + 2
  ∧ ∀ command,
      (send_command env self command (close self s).1).2
      = env (trace (close self s).1 ++ [Call F_send_command])
            (SendCommand command).
Proof.
  destruct s as [tr c]. simpl. intros ->.
  unfold close, send_command, Tool.bind, emit, get_connection, logger_info,
    emit, extern. simpl.
  split; [done|]. split; [done|]. split; [|done].
  rewrite !count_events_app. simpl. lia.
Qed.

Lemma close_does_not_clear_connection_witness :
  connection (mkState [] true) = true
  ∧ connection (close r1 (mkState [] true)).1 = true.
Proof.
  split; [reflexivity|].
  exact (proj1 (close_does_not_clear_connection (healthy (lit "old")) r1
                  (mkState [] true) eq_refl)).
Defined.

(** X16: when [connect] fails on a device without a connection, it has
    logged the error under the host name and raises the same error;
    the device stays without a connection, [send_command] and
    [send_config_set] then raise "Not connected to the device" and call
    nothing outside, and so does [backup_config], which opens no
    file. *)
Theorem failed_connect_refuses_commands env self s e backup_dir :
  connection s = false →
  (connect env self s).2 = Raise e →
  let s' := (connect env self s).1 in
  connection s' = false
  ∧ trace s'
    = trace s
      ++ [Call F_connect;
          Ext (ConnectHandler (lit "cisco_" ++ device_type self)
                 (hostname self) (username self) (password self)) (Raise e);
          connect_failure_log (hostname self) e]
  ∧ (∀ command,
       send_command env self command s'
       = (mkState (trace s' ++ [Call F_send_command]) false,
          Raise not_connected))
  ∧ (∀ config,
       send_config_set env self config s'
       = (mkState (trace s' ++ [Call F_send_config_set]) false,
          Raise not_connected))
  ∧ (backup_config env self backup_dir s').2 = Raise not_connected
  ∧ steps (trace (backup_config env self backup_dir s').1) = steps (trace s').
Proof.
  destruct s as [tr c]. simpl. intros ->.
  unfold connect, backup_config, get_config, send_command, send_config_set,
    try_except, Tool.bind, emit, get_connection, set_connection, logger_info,
    logger_error, emit, extern, raise, connect_failure_log.
  cbn [trace connection].
  destruct (env (tr ++ [Call F_connect]) _) as [x|e'] eqn:E;
    cbn [trace connection snd fst negb]; [done|].
  intros [= ->]. split; [done|].
  split; [by rewrite <- !app_assoc|].
  split; [done|]. split; [done|]. split; [done|].
  rewrite !steps_app. simpl. by rewrite !app_nil_r.
Qed.

Lemma failed_connect_refuses_commands_witness :
  (connection (mkState [] false) = false
   ∧ (connect unreachable r1 (mkState [] false)).2
     = Raise (Exception (lit "timed out")))
  ∧ (backup_config unreachable r1 (lit "bk")
       (connect unreachable r1 (mkState [] false)).1).2
    = Raise not_connected.
Proof.
  split; [by split|].
  exact (proj1 (proj2 (proj2 (proj2 (proj2
           (failed_connect_refuses_commands unreachable r1 (mkState [] false)
              (Exception (lit "timed out")) (lit "bk") eq_refl eq_refl)))))).
Defined.

(** ** The coordinator *)

Lemma collect_results_Ok_inv futures completed i st r :
  collect_results futures completed = Ok () →
  i ∈ completed → futures !! i = Some (st, r) → r = Ok ().
Proof.
  induction completed as [|j completed IH]; intros Hok Hin Hi.
  { by apply elem_of_nil in Hin. }
  simpl in Hok. apply elem_of_cons in Hin as [->|Hin].
  - rewrite Hi in Hok. by destruct r as [[]|].
  - destruct (futures !! j) as [[? []]|]; try done; by apply IH.
Qed.

Lemma collect_results_Raise_inv futures completed e :
  collect_results futures completed = Raise e →
  ∃ pre i post st,
    completed = pre ++ i :: post ∧ futures !! i = Some (st, Raise e)
    ∧ ∀ j st' e', j ∈ pre → futures !! j ≠ Some (st', Raise e').
Proof.
  induction completed as [|j completed IH]; intros Hr; [done|].
  simpl in Hr. destruct (futures !! j) as [[st [u|e']]|] eqn:Hj.
  - destruct (IH Hr) as (pre & i & post & st' & -> & Hi & Hpre).
    exists (j :: pre), i, post, st'. split; [done|]. split; [done|].
    intros j' st'' e'' [->|Hin]%elem_of_cons; [congruence|by apply Hpre].
  - injection Hr as ->. exists [], j, completed, st.
    split; [done|]. split; [done|]. by intros j' st' e' ?%elem_of_nil.
  - destruct (IH Hr) as (pre & i & post & st' & -> & Hi & Hpre).
    exists (j :: pre), i, post, st'. split; [done|]. split; [done|].
    intros j' st'' e'' [->|Hin]%elem_of_cons; [congruence|by apply Hpre].
Qed.


(** X17: with a pool of at least one worker, and every future
    completing once, [configure_devices_parallel] returns exactly when
    every record of the fleet has the four fields: no failure of a
    device, of the file system or of the template makes it raise. *)
Theorem coordinator_returns_iff_records_complete envs completed devices
    template backup_dir max_workers :
  max_workers ≠ 0 →
  completed ≡ₚ seq 0 (length devices) →
  (configure_devices_parallel envs completed devices template backup_dir
     max_workers).2 = Ok ()
  ↔ Forall has_keys devices.
Proof.
  intros Hmw Hperm. split.
  - unfold configure_devices_parallel. rewrite decide_False by done.
    cbn [snd]. intros Hok. apply Forall_forall. intros d Hd.
    apply list_elem_of_lookup in Hd as [i Hi].
    apply has_keys_first_missing.
    destruct (first_missing d) as [k|] eqn:Hk; [|done].
    assert (i ∈ completed) as Hin.
    { rewrite Hperm. apply elem_of_seq. apply lookup_lt_Some in Hi. lia. }
    pose proof (run_task_first_missing (envs i) d template backup_dir k Hk)
      as Hraise.
    destruct (run_task (envs i) d template backup_dir) as [st r] eqn:Hrun.
    simpl in Hraise. subst r.
    assert (Raise (KeyError k) = Ok ()) as Habs; [|done].
    eapply (collect_results_Ok_inv _ _ i st); [exact Hok|done|].
    by rewrite list_lookup_imap, Hi; simpl; rewrite Hrun.
  - intros Hkeys.
    by apply (configure_devices_parallel_returns envs completed devices
                template backup_dir max_workers Hmw Hkeys).
Qed.

Lemma coordinator_returns_iff_records_complete_witness :
  (5 ≠ 0 ∧ [1; 0] ≡ₚ seq 0 (length [no_hostname; router1]))
  ∧ ((configure_devices_parallel (λ _, unreachable) [1; 0]
        [no_hostname; router1] (fixed_template (lit "new")) (lit "bk") 5).2
     = Ok ()
     ↔ Forall has_keys [no_hostname; router1]).
Proof.
  assert ([1; 0] ≡ₚ seq 0 (length [no_hostname; router1])) as Hperm
    by apply perm_swap.
  split; [by split|].
  exact (coordinator_returns_iff_records_complete (λ _, unreachable) [1; 0]
           [no_hostname; router1] (fixed_template (lit "new")) (lit "bk") 5
           ltac:(done) Hperm).
Defined.

(** X18: [configure_devices_parallel] raises two errors only.  With a
    pool of no worker it raises [ValueError] and runs no device.
    Otherwise the error is the [KeyError] of a record that lacks a
    field, the first such record among the futures in the order they
    complete; and every device of the fleet has been run to its end all
    the same. *)
Theorem coordinator_raises_only envs completed devices template backup_dir
    max_workers e :
  (configure_devices_parallel envs completed devices template backup_dir
     max_workers).2 = Raise e →
  (max_workers = 0
   ∧ e = ValueError (lit "max_workers must be greater than 0")
   ∧ (configure_devices_parallel envs completed devices template backup_dir
        max_workers).1 = [])
  ∨ (max_workers ≠ 0
     ∧ (∃ pre i post d k,
          completed = pre ++ i :: post ∧ devices !! i = Some d
          ∧ first_missing d = Some k ∧ e = KeyError k
          ∧ ∀ j d', j ∈ pre → devices !! j = Some d' → has_keys d')
     ∧ ∀ j d, devices !! j = Some d →
         (configure_devices_parallel envs completed devices template
            backup_dir max_workers).1 !! j
         = Some (run_task (envs j) d template backup_dir).1).
Proof.
  unfold configure_devices_parallel.
  destruct (decide (max_workers = 0)) as [->|Hmw]; cbn [fst snd].
  - intros [= <-]. by left.
  - intros Hr. right. split; [done|]. split.
    + apply collect_results_Raise_inv
        in Hr as (pre & i & post & st & -> & Hi & Hpre).
      apply list_lookup_imap_Some in Hi as (d & Hd & Hrun).
      assert ((run_task (envs i) d template backup_dir).2 = Raise e) as He
        by (by rewrite <- Hrun).
      apply run_task_raise_inv in He as (k & Hk & -> & _).
      exists pre, i, post, d, k. do 4 (split; [done|]).
      intros j d' Hj Hd'. apply has_keys_first_missing.
      destruct (first_missing d') as [k'|] eqn:Hk'; [|done].
      pose proof (run_task_first_missing (envs j) d' template backup_dir k'
                    Hk') as Hraise.
      destruct (run_task (envs j) d' template backup_dir) as [st' r'] eqn:Hrun'.
      simpl in Hraise. subst r'.
      destruct (Hpre j st' (KeyError k') Hj).
      by rewrite list_lookup_imap, Hd'; simpl; rewrite Hrun'.
    + intros j d Hd. by rewrite list_lookup_fmap, list_lookup_imap, Hd.
Qed.

Lemma coordinator_raises_only_witness :
  (configure_devices_parallel (λ _, unreachable) [1; 0]
     [no_hostname; router1] (fixed_template (lit "new")) (lit "bk") 5).2
  = Raise (KeyError (lit "hostname"))
  ∧ ∀ j d, [no_hostname; router1] !! j = Some d →
      (configure_devices_parallel (λ _, unreachable) [1; 0]
         [no_hostname; router1] (fixed_template (lit "new"))
         (lit "bk") 5).1 !! j
      = Some (run_task unreachable d (fixed_template (lit "new"))
                (lit "bk")).1.
Proof.
  assert ((configure_devices_parallel (λ _, unreachable) [1; 0]
             [no_hostname; router1] (fixed_template (lit "new")) (lit "bk")
             5).2
          = Raise (KeyError (lit "hostname"))) as Hr
    by (vm_compute; reflexivity).
  split; [exact Hr|].
  destruct (coordinator_raises_only (λ _, unreachable) [1; 0]
              [no_hostname; router1] (fixed_template (lit "new")) (lit "bk") 5
              _ Hr) as [(Habs & _)|(_ & _ & Hall)]; [discriminate Habs|].
  exact Hall.
Defined.

(** ** [main] *)

(** X19: when the discovery, the inventory file or the template file
    fails, [main] ends with that error and the pool never runs: no
    device is contacted. *)
Theorem loading_failure_touches_no_device w envs completed args c e :
  Main.Lib c (Some e) ∈ (Main.main w envs completed args).1 →
  (Main.main w envs completed args).2 = Raise e
  ∧ ∀ ev, ev ∈ (Main.main w envs completed args).1 → is_fleet ev = false.
Proof.
  destruct (Main.discover args) as [[|ch network]|] eqn:Hd;
    unfold Main.main; rewrite Hd; main_paths w;
    intros Hin; mem_inv Hin; try discriminate; injection Hin as -> ->;
    (split; [done|]); intros ev Hev; mem_inv Hev; by subst.
Qed.

Lemma loading_failure_touches_no_device_witness :
  Main.Lib (Main.Open (lit "devices.yaml"))
    (Some (Exception (lit "No such file or directory")))
  ∈ (Main.main no_inventory (λ _, healthy (lit "old")) [0] sample_args).1
  ∧ (Main.main no_inventory (λ _, healthy (lit "old")) [0] sample_args).2
    = Raise (Exception (lit "No such file or directory")).
Proof.
  assert (Main.Lib (Main.Open (lit "devices.yaml"))
            (Some (Exception (lit "No such file or directory")))
          ∈ (Main.main no_inventory (λ _, healthy (lit "old")) [0]
               sample_args).1)
    as Hin by (vm_compute; do 3 right; left).
  split; [exact Hin|].
  exact (proj1 (loading_failure_touches_no_device _ _ _ _ _ _ Hin)).
Defined.

(** X20: the discovery only logs.  When it does not fail, [main] with
    [--discover] does with the two files and the fleet what it does
    without: leaving out the two calls and the line of the discovery
    gives the run without the option, with the same end.  An empty
    [--discover] is no discovery at all. *)
Theorem discovery_is_only_logged w envs completed args :
  (∀ ev, ev ∈ (Main.main w envs completed args).1 → is_discovery ev = true →
         ∀ c e, ev ≠ Main.Lib c (Some e)) →
  filter (λ ev, is_discovery ev = false) (Main.main w envs completed args).1
  = (Main.main w envs completed (without_discover args)).1
  ∧ (Main.main w envs completed args).2
    = (Main.main w envs completed (without_discover args)).2.
Proof.
  unfold without_discover.
  destruct (Main.discover args) as [[|ch network]|] eqn:Hd;
    unfold Main.main; rewrite Hd;
    cbn [Main.discover Main.devices Main.template Main.backup_dir];
    main_paths w; intros Hok;
    try (exfalso; eapply Hok; [| |reflexivity]; [by repeat constructor|done]);
    done.
Qed.

Lemma discovery_is_only_logged_witness :
  (∀ ev, ev ∈ (Main.main plain_libs (λ _, healthy (lit "old")) [0]
                 sample_args).1 →
         is_discovery ev = true → ∀ c e, ev ≠ Main.Lib c (Some e))
  ∧ (Main.main plain_libs (λ _, healthy (lit "old")) [0] sample_args).2
    = (Main.main plain_libs (λ _, healthy (lit "old")) [0]
         (without_discover sample_args)).2.
Proof.
  assert (∀ ev,
            ev ∈ (Main.main plain_libs (λ _, healthy (lit "old")) [0]
                    sample_args).1 →
            is_discovery ev = true → ∀ c e, ev ≠ Main.Lib c (Some e)) as Hok.
  { set (l := (Main.main plain_libs (λ _, healthy (lit "old")) [0]
                 sample_args).1).
    vm_compute in l. subst l.
    intros ev Hev Hd c e ->. mem_inv Hev; discriminate. }
  split; [exact Hok|].
  exact (proj2 (discovery_is_only_logged _ _ _ _ Hok)).
Defined.



(** X23: a file [main] has opened is closed again, and only such a
    file: the inventory and the template are read inside [with], so
    they are closed also when [yaml.safe_load] or [jinja2.Template]
    raises. *)
Theorem opened_files_are_closed w envs completed args filename :
  Main.Lib (Main.Open filename) None ∈ (Main.main w envs completed args).1
  ↔ Main.Lib (Main.Close filename) None
    ∈ (Main.main w envs completed args).1.
Proof.
  destruct (Main.discover args) as [[|ch network]|] eqn:Hd;
    unfold Main.main; rewrite Hd; main_paths w;
    (split; intros Hin; mem_inv Hin; try discriminate;
     injection Hin as ->;
     repeat first [ by left | right | (apply elem_of_app; right) ]).
Qed.
